(** * TreeStore: a shallow embedding of [src/utils/TreeStore.ts]

    The store keeps two JavaScript [Map]s over the same records:
    [items] (identifier to record, iterated in insertion order by [getAll])
    and [childrenMap] (parent identifier to the array of its direct
    children).  [items] is modelled as an insertion-ordered association
    list, because its iteration order is observable; [childrenMap] is only
    ever read by key, so it is a [gmap].

    Identifiers are [string | number] in the source; numbers are modelled
    as integers (so [NaN] and signed zeros, on which [Map] keys and [===]
    disagree, are left out), and a string never equals a number.  Records
    are compared by value.  The two [while] loops of
    the source ([getAllChildren], [getAllParents]) have no revisit guard and
    need not terminate, so they take a [fuel] bound on the number of
    iterations; [None] / [OutOfFuel] means the bound was hit. *)

From stdpp Require Import base option list strings gmap relations.

(** ** Data model *)

Inductive Id : Type :=
  | IdStr (s : string)
  | IdNum (n : Z).

#[global] Instance Id_eq_dec : EqDecision Id.
Proof. solve_decision. Defined.

#[global] Instance Id_countable : Countable Id.
Proof.
  refine (inj_countable'
    (λ i, match i with IdStr s => inl s | IdNum n => inr n end)
    (λ x, match x with inl s => IdStr s | inr n => IdNum n end) _).
  by intros [].
Defined.

(** [interface TreeStoreItem]; the index signature [[key: string]: unknown]
    is the [item_extra] bag, which the store never inspects. *)
Record TreeStoreItem : Type := mkItem {
  item_id : Id;
  item_parent : option Id;
  item_label : string;
  item_extra : list (string * string)
}.

#[global] Instance TreeStoreItem_eq_dec : EqDecision TreeStoreItem.
Proof. solve_decision. Defined.

(** ** JavaScript [Map] with observable insertion order *)

Section OrderedMap.
Context {V : Type}.

Fixpoint Map_get (k : Id) (m : list (Id * V)) : option V :=
  match m with
  | [] => None
  | (k', v) :: m' => if decide (k = k') then Some v else Map_get k m'
  end.

Definition Map_has (k : Id) (m : list (Id * V)) : bool :=
  bool_decide (is_Some (Map_get k m)).

(** [set] on a present key overwrites in place, otherwise appends. *)
Fixpoint Map_set (k : Id) (v : V) (m : list (Id * V)) : list (Id * V) :=
  match m with
  | [] => [(k, v)]
  | (k', v') :: m' =>
      if decide (k = k') then (k, v) :: m' else (k', v') :: Map_set k v m'
  end.

Fixpoint Map_delete (k : Id) (m : list (Id * V)) : list (Id * V) :=
  match m with
  | [] => []
  | (k', v') :: m' =>
      if decide (k = k') then Map_delete k m' else (k', v') :: Map_delete k m'
  end.

Definition Map_values (m : list (Id * V)) : list V := m.*2.
Definition Map_keys (m : list (Id * V)) : list Id := m.*1.
End OrderedMap.

(** ** Store state *)

Record TreeStore : Type := mkStore {
  items : list (Id * TreeStoreItem);
  childrenMap : gmap Id (list TreeStoreItem)
}.

Definition set_items (f : list (Id * TreeStoreItem) → list (Id * TreeStoreItem))
    (s : TreeStore) : TreeStore :=
  {| items := f (items s); childrenMap := childrenMap s |}.

Definition set_childrenMap
    (f : gmap Id (list TreeStoreItem) → gmap Id (list TreeStoreItem))
    (s : TreeStore) : TreeStore :=
  {| items := items s; childrenMap := f (childrenMap s) |}.

(** [if (!childrenMap.has(p)) childrenMap.set(p, []);
     childrenMap.get(p)!.push(item)] *)
Definition children_push (parentId : Id) (item : TreeStoreItem)
    (cm : gmap Id (list TreeStoreItem)) : gmap Id (list TreeStoreItem) :=
  let cm1 := if decide (is_Some (cm !! parentId)) then cm
             else <[parentId := []]> cm in
  match cm1 !! parentId with
  | Some l => <[parentId := l ++ [item]]> cm1
  | None => cm1
  end.

(** [findIndex]: [None] stands for the source's [-1]. *)
Fixpoint findIndex {A : Type} (p : A → bool) (l : list A) : option nat :=
  match l with
  | [] => None
  | x :: l' => if p x then Some 0 else S <$> findIndex p l'
  end.

(** [const l = childrenMap.get(p); if (l) { const index = l.findIndex(child
    => child.id === id); if (index !== -1) l.splice(index, 1) }] *)
Definition children_splice (parentId : Id) (i : Id)
    (cm : gmap Id (list TreeStoreItem)) : gmap Id (list TreeStoreItem) :=
  match cm !! parentId with
  | Some l =>
      match findIndex (λ child, bool_decide (item_id child = i)) l with
      | Some index => <[parentId := delete index l]> cm
      | None => cm
      end
  | None => cm
  end.

(** ** Construction *)

Definition initialize (input : list TreeStoreItem) (s : TreeStore) : TreeStore :=
  let s1 :=
    foldl (λ st item, set_items (Map_set (item_id item) item) st) s input in
  let s2 := set_childrenMap (λ _, ∅) s1 in
  foldl (λ st item,
           match item_parent item with
           | Some parentId => set_childrenMap (children_push parentId item) st
           | None => st
           end) s2 input.

Definition new_TreeStore (input : list TreeStoreItem) : TreeStore :=
  initialize input {| items := []; childrenMap := ∅ |}.

(** ** Queries *)

Definition getAll (s : TreeStore) : list TreeStoreItem := Map_values (items s).

Definition getItem (s : TreeStore) (i : Id) : option TreeStoreItem :=
  Map_get i (items s).

Definition getChildren (s : TreeStore) (i : Id) : list TreeStoreItem :=
  default [] (childrenMap s !! i).

(** The [while (queue.length > 0)] loop of [getAllChildren]; one unit of
    fuel per dequeued node. *)
Fixpoint getAllChildren_loop (fuel : nat) (s : TreeStore)
    (queue acc : list TreeStoreItem) : option (list TreeStoreItem) :=
  match queue with
  | [] => Some acc
  | current :: queue' =>
      match fuel with
      | 0 => None
      | S fuel' =>
          getAllChildren_loop fuel' s
            (queue' ++ getChildren s (item_id current)) (acc ++ [current])
      end
  end.

Definition getAllChildren (fuel : nat) (s : TreeStore) (i : Id)
    : option (list TreeStoreItem) :=
  getAllChildren_loop fuel s (getChildren s i) [].

(** The [while (current.parent !== null)] loop of [getAllParents]; one unit
    of fuel per step up. *)
Fixpoint getAllParents_loop (fuel : nat) (s : TreeStore)
    (current : TreeStoreItem) (parents : list TreeStoreItem)
    : option (list TreeStoreItem) :=
  match item_parent current with
  | None => Some parents
  | Some p =>
      match getItem s p with
      | None => Some parents
      | Some parent =>
          match fuel with
          | 0 => None
          | S fuel' => getAllParents_loop fuel' s parent (parents ++ [parent])
          end
      end
  end.

Definition getAllParents (fuel : nat) (s : TreeStore) (i : Id)
    : option (list TreeStoreItem) :=
  match getItem s i with
  | None => Some []
  | Some current => getAllParents_loop fuel s current [current]
  end.

Definition wouldCreateCircularReference (fuel : nat) (s : TreeStore)
    (itemId newParentId : Id) : option bool :=
  if decide (itemId = newParentId) then Some true
  else
    allChildren ← getAllChildren fuel s itemId;
    Some (existsb (λ child, bool_decide (item_id child = newParentId))
            allChildren).

(** ** Mutations: a state monad with exceptions and a fuel bound *)

Inductive Error : Type :=
  | ItemAlreadyExists (i : Id)   (* "Item with id ... already exists" *)
  | ParentNotFound (i : Id)      (* "Parent with id ... does not exist" *)
  | CircularReference            (* "Circular reference detected" *)
  | ItemNotFound (i : Id).       (* "Item with id ... does not exist" *)

(** What a call leaves behind: a value or a thrown error, each with the
    store as it is at that moment, or nothing when the fuel ran out. *)
Inductive outcome (A : Type) : Type :=
  | Returns (a : A) (s : TreeStore)
  | Throws (e : Error) (s : TreeStore)
  | OutOfFuel.
Arguments Returns {A} a s.
Arguments Throws {A} e s.
Arguments OutOfFuel {A}.

Definition M (A : Type) : Type := TreeStore → outcome A.

#[global] Instance M_ret : MRet M := λ A a s, Returns a s.
#[global] Instance M_bind : MBind M := λ A B f m s,
  match m s with
  | Returns a s' => f a s'
  | Throws e s' => Throws e s'
  | OutOfFuel => OutOfFuel
  end.

Definition throw {A} (e : Error) : M A := λ s, Throws e s.
Definition gets {A} (f : TreeStore → A) : M A := λ s, Returns (f s) s.
Definition modify (f : TreeStore → TreeStore) : M unit := λ s, Returns tt (f s).
Definition bounded {A} (f : TreeStore → option A) : M A :=
  λ s, match f s with Some a => Returns a s | None => OutOfFuel end.
Definition when (b : bool) (m : M unit) : M unit := if b then m else mret tt.

(** [if (item.parent !== null && !this.items.has(item.parent)) throw ...] *)
Definition check_parent (p : option Id) : M unit :=
  match p with
  | Some parentId =>
      known ← gets (λ s, Map_has parentId (items s));
      when (negb known) (throw (ParentNotFound parentId))
  | None => mret tt
  end.

(** [if (item.parent !== null &&
         this.wouldCreateCircularReference(item.id, item.parent)) throw ...] *)
Definition check_circular (fuel : nat) (i : Id) (p : option Id) : M unit :=
  match p with
  | Some parentId =>
      circular ← bounded (λ s, wouldCreateCircularReference fuel s i parentId);
      when circular (throw CircularReference)
  | None => mret tt
  end.

(** [items.set(item.id, { ...item })] stores a shallow copy, which has the
    value of [item]; the child list receives [item] itself. *)
Definition addItem (fuel : nat) (item : TreeStoreItem) : M unit :=
  present ← gets (λ s, Map_has (item_id item) (items s));
  when present (throw (ItemAlreadyExists (item_id item)));;
  check_parent (item_parent item);;
  check_circular fuel (item_id item) (item_parent item);;
  modify (set_items (Map_set (item_id item) item));;
  match item_parent item with
  | Some parentId => modify (set_childrenMap (children_push parentId item))
  | None => mret tt
  end.

(** [allChildren.forEach((child) => { this.items.delete(child.id);
     this.childrenMap.delete(child.id) })] *)
Definition delete_each (allChildren : list TreeStoreItem) (s : TreeStore)
    : TreeStore :=
  foldl (λ st child,
           set_childrenMap (delete (item_id child))
             (set_items (Map_delete (item_id child)) st))
        s allChildren.

Definition removeItem (fuel : nat) (i : Id) : M unit :=
  found ← gets (λ s, getItem s i);
  match found with
  | None => mret tt
  | Some item =>
      allChildren ← bounded (λ s, getAllChildren fuel s i);
      modify (delete_each allChildren);;
      modify (set_items (Map_delete i));;
      modify (set_childrenMap (delete i));;
      match item_parent item with
      | Some parentId => modify (set_childrenMap (children_splice parentId i))
      | None => mret tt
      end
  end.

Definition updateItem (fuel : nat) (updatedItem : TreeStoreItem) : M unit :=
  found ← gets (λ s, getItem s (item_id updatedItem));
  match found with
  | None => throw (ItemNotFound (item_id updatedItem))
  | Some existingItem =>
      check_parent (item_parent updatedItem);;
      check_circular fuel (item_id updatedItem) (item_parent updatedItem);;
      when (negb (bool_decide
                    (item_parent existingItem = item_parent updatedItem)))
        (match item_parent existingItem with
         | Some oldParent =>
             modify (set_childrenMap
                       (children_splice oldParent (item_id updatedItem)))
         | None => mret tt
         end;;
         match item_parent updatedItem with
         | Some parentId =>
             modify (set_childrenMap (children_push parentId updatedItem))
         | None => mret tt
         end);;
      modify (set_items (Map_set (item_id updatedItem) updatedItem))
  end.

(** ** The tree grid's [getDataPath]

    The grid component keeps the rows in a plain array and materialises,
    for each row, the labels from its root down to the row itself.  The
    recursive [buildPath] pushes onto a shared [path]; the array is passed
    along explicitly here, and one unit of fuel is spent per row found. *)

(** [rowData.value.find(row => row.id === itemId)] *)
Definition find_row (rowData : list TreeStoreItem) (itemId : Id)
    : option TreeStoreItem :=
  List.find (λ row, bool_decide (item_id row = itemId)) rowData.

Fixpoint buildPath (fuel : nat) (rowData : list TreeStoreItem)
    (itemId : option Id) (path : list string) : option (list string) :=
  match itemId with
  | None => Some path
  | Some i =>
      match find_row rowData i with
      | Some item =>
          match fuel with
          | 0 => None
          | S fuel' =>
              path' ← buildPath fuel' rowData (item_parent item) path;
              Some (path' ++ [item_label item])
          end
      | None => Some path
      end
  end.

Definition getDataPath (fuel : nat) (rowData : list TreeStoreItem)
    (data : TreeStoreItem) : option (list string) :=
  path ← buildPath fuel rowData (item_parent data) [];
  Some (path ++ [item_label data]).

(** ** The fixture of the test-suite *)

Definition A : Id := IdStr "91064cee".

Definition mockItems : list TreeStoreItem :=
  [ mkItem (IdNum 1) None "Айтем 1" [];
    mkItem A (Some (IdNum 1)) "Айтем 2" [];
    mkItem (IdNum 3) (Some (IdNum 1)) "Айтем 3" [];
    mkItem (IdNum 4) (Some A) "Айтем 4" [];
    mkItem (IdNum 5) (Some A) "Айтем 5" [];
    mkItem (IdNum 6) (Some A) "Айтем 6" [];
    mkItem (IdNum 7) (Some (IdNum 4)) "Айтем 7" [];
    mkItem (IdNum 8) (Some (IdNum 4)) "Айтем 8" [] ].

Definition fixture : TreeStore := new_TreeStore mockItems.

(** Inputs that construction accepts unchecked.  [two_cycle] has a parent
    chain that loops; in [stale_children] the second entry for [2] wins the
    primary index, so the parent chains are finite, while the child lists
    still hold both entries; [orphan_cycle] has child lists under the
    unstored identifier [3] that lead into a loop. *)
Definition two_cycle : TreeStore :=
  new_TreeStore
    [ mkItem (IdNum 1) (Some (IdNum 2)) "a" [];
      mkItem (IdNum 2) (Some (IdNum 1)) "b" [] ].

Definition stale_children : TreeStore :=
  new_TreeStore
    [ mkItem (IdNum 1) (Some (IdNum 2)) "a" [];
      mkItem (IdNum 2) (Some (IdNum 1)) "b" [];
      mkItem (IdNum 2) None "b" [] ].

Definition orphan_cycle : TreeStore :=
  new_TreeStore
    [ mkItem (IdNum 1) (Some (IdNum 3)) "a" [];
      mkItem (IdNum 2) (Some (IdNum 1)) "b" [];
      mkItem (IdNum 1) (Some (IdNum 2)) "a" [] ].

Definition repeated_input : list TreeStoreItem :=
  [ mkItem (IdNum 1) None "root" [];
    mkItem (IdNum 2) (Some (IdNum 1)) "b" [];
    mkItem (IdNum 2) (Some (IdNum 1)) "b" [];
    mkItem (IdNum 3) (Some (IdNum 2)) "c" [];
    mkItem (IdNum 3) (Some (IdNum 2)) "c" [] ].


(** ** Specification vocabulary *)

Abbreviation ids l := (item_id <$> l) (only parsing).

(** What [findIndex] followed by [splice(index, 1)] leaves of a child
    list: the first entry carrying the identifier is dropped. *)
Fixpoint remove_child (i : Id) (l : list TreeStoreItem) : list TreeStoreItem :=
  match l with
  | [] => []
  | c :: l' => if decide (item_id c = i) then l' else c :: remove_child i l'
  end.

(** [parent_of s x y]: the record stored under [x] names [y] as parent. *)
Definition parent_of (s : TreeStore) (x y : Id) : Prop :=
  ∃ it, getItem s x = Some it ∧ item_parent it = Some y.

(** [ancestor s x y]: [y] is reached from [x] by one or more parent links. *)
Definition ancestor (s : TreeStore) : relation Id := tc (parent_of s).

(** [chain_length_ge s k x]: at least [k] parent links lead up from [x]. *)
Definition chain_length_ge (s : TreeStore) (k : nat) (x : Id) : Prop :=
  ∃ y, nsteps (parent_of s) k x y.

(** Invariant 1: every key of the primary index occurs once and is the
    identifier of the record stored under it. *)
Definition unique_ids (s : TreeStore) : Prop :=
  NoDup (Map_keys (items s)) ∧
  ∀ k it, getItem s k = Some it → item_id it = k.

(** Invariant 2: every non-null parent is stored. *)
Definition parents_exist (s : TreeStore) : Prop :=
  ∀ x y, parent_of s x y → is_Some (getItem s y).

(** Invariant 3: no item is its own ancestor. *)
Definition acyclic (s : TreeStore) : Prop := ∀ x, ¬ ancestor s x x.

(** One half of invariant 4: every entry of the child list kept under [p]
    is the identifier of a stored item whose parent is [p]. *)
Definition children_sound (s : TreeStore) : Prop :=
  ∀ p c, c ∈ getChildren s p → parent_of s (item_id c) p.

(** Invariant 4 on identifiers: the child list kept under [p] lists, once
    each, exactly the stored items whose parent is [p]. *)
Definition children_index (s : TreeStore) : Prop :=
  ∀ p, NoDup (ids (getChildren s p)) ∧
       ∀ x, x ∈ ids (getChildren s p) ↔ parent_of s x p.

(** Invariant 4 on records: the entries of the child lists are the
    stored records themselves. *)
Definition children_records (s : TreeStore) : Prop :=
  ∀ p c, c ∈ getChildren s p → getItem s (item_id c) = Some c.

(** The invariants that every successful mutation maintains. *)
Definition Inv (s : TreeStore) : Prop :=
  unique_ids s ∧ parents_exist s ∧ acyclic s ∧ children_index s.

(** The invariants as the data model states them, with child lists
    holding the stored records. *)
Definition Inv_records (s : TreeStore) : Prop := Inv s ∧ children_records s.

(** Breadth-first generations: the children of a list of nodes, and the
    concatenation of [n] successive generations starting from [q]. *)
Definition nextLevel (s : TreeStore) (q : list TreeStoreItem)
    : list TreeStoreItem :=
  q ≫= (λ c, getChildren s (item_id c)).

Fixpoint levels (n : nat) (s : TreeStore) (q : list TreeStoreItem)
    : list TreeStoreItem :=
  match n with
  | 0 => []
  | S n' => q ++ levels n' s (nextLevel s q)
  end.

(** [chain s cur l]: [l] is [cur] followed by its stored parent, that
    one's stored parent and so on, up to the first record whose parent is
    null or not stored. *)
Inductive chain (s : TreeStore) : TreeStoreItem → list TreeStoreItem → Prop :=
  | chain_root cur :
      item_parent cur = None → chain s cur [cur]
  | chain_dangling cur p :
      item_parent cur = Some p → getItem s p = None → chain s cur [cur]
  | chain_step cur p par l :
      item_parent cur = Some p → getItem s p = Some par →
      chain s par l → chain s cur (cur :: l).

(** A loop that exhausts every fuel bound never returns. *)
Definition diverges {A} (run : nat → option A) : Prop :=
  ∀ fuel, run fuel = None.

Definition hangs {A} (run : nat → M A) (s : TreeStore) : Prop :=
  ∀ fuel, run fuel s = OutOfFuel.

(** The mutating calls, and sequences of successful ones. *)
Inductive call : Type :=
  | AddItem (item : TreeStoreItem)
  | UpdateItem (item : TreeStoreItem)
  | RemoveItem (i : Id).

Definition exec (fuel : nat) (c : call) : M unit :=
  match c with
  | AddItem item => addItem fuel item
  | UpdateItem item => updateItem fuel item
  | RemoveItem i => removeItem fuel i
  end.

Fixpoint run_all (fuel : nat) (cs : list call) : M unit :=
  match cs with
  | [] => mret tt
  | c :: cs' => exec fuel c;; run_all fuel cs'
  end.

Definition succeeds (s : TreeStore) (c : call) (s' : TreeStore) : Prop :=
  ∃ fuel, exec fuel c s = Returns tt s'.

Inductive succeed_all (s : TreeStore) : list call → TreeStore → Prop :=
  | succeed_nil : succeed_all s [] s
  | succeed_cons c cs s1 s2 :
      succeeds s c s1 → succeed_all s1 cs s2 → succeed_all s (c :: cs) s2.

(** [parents_first l]: every entry of [l] names as parent, if any, an
    identifier that occurs earlier in [l]. *)
Definition parents_first (l : list TreeStoreItem) : Prop :=
  ∀ n it p, l !! n = Some it → item_parent it = Some p → p ∈ ids (take n l).

(** Unfolds the monadic plumbing of a mutating call. *)
Ltac unfold_M :=
  unfold check_parent, check_circular, when, bounded, gets, modify, throw;
  unfold mbind, M_bind, mret, M_ret; cbn beta iota.

(** * Properties *)

(** ** The ordered map *)

Section OrderedMapFacts.
Context {V : Type}.
Implicit Types (k : Id) (v : V) (m : list (Id * V)).

Lemma Map_get_set k k' v m :
  Map_get k' (Map_set k v m) = if decide (k' = k) then Some v else Map_get k' m.
Proof.
  induction m as [|[k0 v0] m IH]; simpl.
  - repeat case_decide; congruence.
  - repeat (case_decide; simpl); try congruence.
Qed.

Lemma Map_get_delete k k' m :
  Map_get k' (Map_delete k m) = if decide (k' = k) then None else Map_get k' m.
Proof.
  induction m as [|[k0 v0] m IH]; simpl.
  - by case_decide.
  - repeat (case_decide; simpl); try congruence.
Qed.

Lemma Map_get_Some_key k v m : Map_get k m = Some v → k ∈ Map_keys m.
Proof.
  induction m as [|[k0 v0] m IH]; simpl; [done|].
  case_decide; [subst; left | right; auto].
Qed.

Lemma Map_get_None_key k m : Map_get k m = None ↔ k ∉ Map_keys m.
Proof.
  induction m as [|[k0 v0] m IH]; simpl.
  - split; [intros _; apply not_elem_of_nil | done].
  - rewrite not_elem_of_cons. case_decide; [|tauto].
    split; [done | intros [? _]; done].
Qed.


Lemma Map_has_true k m : Map_has k m = true ↔ is_Some (Map_get k m).
Proof. unfold Map_has. apply bool_decide_eq_true. Qed.

Lemma Map_has_false k m : Map_has k m = false ↔ Map_get k m = None.
Proof.
  unfold Map_has. rewrite bool_decide_eq_false, eq_None_not_Some. done.
Qed.

Lemma Map_keys_set k v m :
  Map_keys (Map_set k v m)
  = if Map_has k m then Map_keys m else Map_keys m ++ [k].
Proof.
  unfold Map_keys.
  induction m as [|[k0 v0] m IH]; [done|].
  unfold Map_has in *. cbn [Map_set Map_get]. case_decide.
  - subst. by rewrite bool_decide_eq_true_2 by eauto.
  - rewrite !fmap_cons, IH. by destruct (bool_decide _).
Qed.

Lemma Map_keys_delete k m :
  Map_keys (Map_delete k m) = filter (λ k', k' ≠ k) (Map_keys m).
Proof.
  unfold Map_keys.
  induction m as [|[k0 v0] m IH]; [done|].
  cbn [Map_delete]. rewrite fmap_cons. cbn [fst]. case_decide; subst.
  - rewrite filter_cons_False; [done | by intros []].
  - rewrite filter_cons_True by done. rewrite fmap_cons. by f_equal.
Qed.

Lemma Map_keys_set_NoDup k v m : NoDup (Map_keys m) → NoDup (Map_keys (Map_set k v m)).
Proof.
  intros Hnd. rewrite Map_keys_set.
  destruct (Map_has k m) eqn:Hk; [done|].
  apply Map_has_false, Map_get_None_key in Hk.
  apply NoDup_app. split_and!; [done | | apply NoDup_singleton].
  intros x Hx ->%list_elem_of_singleton. done.
Qed.

Lemma Map_keys_delete_NoDup k m : NoDup (Map_keys m) → NoDup (Map_keys (Map_delete k m)).
Proof. intros Hnd. rewrite Map_keys_delete. by apply NoDup_filter. Qed.

Lemma Map_delete_absent k m : Map_get k m = None → Map_delete k m = m.
Proof.
  induction m as [|[k0 v0] m IH]; simpl; [done|].
  case_decide; [done|]. intros H'. by rewrite IH.
Qed.
End OrderedMapFacts.

(** ** Child lists *)

Lemma splice_remove_child i l :
  match findIndex (λ child, bool_decide (item_id child = i)) l with
  | Some index => delete index l
  | None => l
  end = remove_child i l.
Proof.
  induction l as [|c l IH]; [done|].
  cbn [findIndex remove_child]. case_bool_decide.
  - by rewrite decide_True by done.
  - rewrite decide_False by done.
    destruct (findIndex _ l) as [n|]; simpl; by rewrite <- IH.
Qed.

Lemma getChildren_push s p it q :
  getChildren (set_childrenMap (children_push p it) s) q
  = if decide (q = p) then getChildren s p ++ [it] else getChildren s q.
Proof.
  unfold getChildren, set_childrenMap, children_push; simpl.
  destruct (decide (is_Some (childrenMap s !! p))) as [[l Hl]|Hn].
  - rewrite Hl, lookup_insert.
    repeat case_decide; simpl; congruence.
  - rewrite lookup_insert_eq, lookup_insert.
    apply eq_None_not_Some in Hn. rewrite Hn.
    repeat case_decide; try congruence; [done|].
    by rewrite lookup_insert_ne by done.
Qed.

Lemma getChildren_splice s p i q :
  getChildren (set_childrenMap (children_splice p i) s) q
  = if decide (q = p) then remove_child i (getChildren s p) else getChildren s q.
Proof.
  unfold getChildren, set_childrenMap, children_splice; simpl.
  destruct (childrenMap s !! p) as [l|] eqn:Hl; simpl.
  - rewrite <- splice_remove_child.
    destruct (findIndex _ l) as [n|]; simpl.
    + rewrite lookup_insert. repeat case_decide; simpl; congruence.
    + case_decide; [subst; by rewrite Hl | done].
  - case_decide; [subst; by rewrite Hl | done].
Qed.

Lemma getChildren_delete s i q :
  getChildren (set_childrenMap (delete i) s) q
  = if decide (q = i) then [] else getChildren s q.
Proof.
  unfold getChildren, set_childrenMap; simpl. rewrite lookup_delete.
  repeat case_decide; simpl; congruence.
Qed.

Lemma getChildren_set_items f s q :
  getChildren (set_items f s) q = getChildren s q.
Proof. done. Qed.

Lemma getItem_set_childrenMap f s q :
  getItem (set_childrenMap f s) q = getItem s q.
Proof. done. Qed.

Lemma getItem_set s k it q :
  getItem (set_items (Map_set k it) s) q
  = if decide (q = k) then Some it else getItem s q.
Proof. apply Map_get_set. Qed.

Lemma getItem_delete s k q :
  getItem (set_items (Map_delete k) s) q
  = if decide (q = k) then None else getItem s q.
Proof. apply Map_get_delete. Qed.

Lemma remove_child_ids i l :
  NoDup (ids l) → ∀ x, x ∈ ids (remove_child i l) ↔ x ∈ ids l ∧ x ≠ i.
Proof.
  induction l as [|c l IH]; intros Hnd x.
  - simpl. split; [by intros ?%elem_of_nil | by intros [?%elem_of_nil _]].
  - rewrite fmap_cons in Hnd. apply NoDup_cons in Hnd as [Hc Hnd].
    cbn [remove_child]. case_decide as Hi.
    + rewrite fmap_cons, elem_of_cons. subst i.
      split; [intros Hx; split; [by right | by intros ->] | ].
      intros [[->|Hx] Hne]; done.
    + rewrite !fmap_cons, !elem_of_cons, IH by done.
      split; [intros [->|[? ?]]; split; auto | intros [[->|?] ?]; auto].
Qed.

Lemma remove_child_sublist i l : remove_child i l `sublist_of` l.
Proof.
  induction l as [|c l IH]; [done|]. cbn [remove_child].
  case_decide; [by apply sublist_cons | by apply sublist_skip].
Qed.

Lemma remove_child_NoDup i l : NoDup (ids l) → NoDup (ids (remove_child i l)).
Proof.
  intros Hnd. eapply sublist_NoDup; [exact Hnd|].
  apply fmap_sublist, remove_child_sublist.
Qed.

Lemma remove_child_absent i l : i ∉ ids l → remove_child i l = l.
Proof.
  induction l as [|c l IH]; [done|].
  rewrite fmap_cons, not_elem_of_cons. intros [Hne Hni].
  cbn [remove_child]. rewrite decide_False by done. by rewrite IH.
Qed.

(** ** The breadth-first loop of [getAllChildren] *)

Section Traversal.
Variable s : TreeStore.
Implicit Types (q acc r : list TreeStoreItem).

Lemma nextLevel_cons c q :
  nextLevel s (c :: q) = getChildren s (item_id c) ++ nextLevel s q.
Proof. done. Qed.

Lemma nextLevel_app q1 q2 :
  nextLevel s (q1 ++ q2) = nextLevel s q1 ++ nextLevel s q2.
Proof. apply bind_app. Qed.

Lemma elem_of_nextLevel d q :
  d ∈ nextLevel s q ↔ ∃ c, c ∈ q ∧ d ∈ getChildren s (item_id c).
Proof.
  unfold nextLevel. rewrite list_elem_of_bind.
  split; intros (c & ? & ?); by exists c.
Qed.

Lemma getAllChildren_loop_nil fuel acc :
  getAllChildren_loop fuel s [] acc = Some acc.
Proof. by destruct fuel. Qed.

Lemma getAllChildren_loop_mono fuel fuel' q acc r :
  fuel ≤ fuel' →
  getAllChildren_loop fuel s q acc = Some r →
  getAllChildren_loop fuel' s q acc = Some r.
Proof.
  revert fuel' q acc.
  induction fuel as [|fuel IH]; intros [|fuel'] [|c q] acc Hle;
    simpl; try done; try lia.
  apply IH. lia.
Qed.

(** Dequeuing a whole generation [q] enqueues the next one. *)
Lemma getAllChildren_loop_level q rest acc fuel :
  getAllChildren_loop (length q + fuel) s (q ++ rest) acc
  = getAllChildren_loop fuel s (rest ++ nextLevel s q) (acc ++ q).
Proof.
  revert rest acc.
  induction q as [|c q IH]; intros rest acc.
  - simpl. by rewrite !app_nil_r.
  - cbn [length Nat.add app getAllChildren_loop].
    rewrite <- (assoc_L (++)), IH, nextLevel_cons.
    by rewrite <- !(assoc_L (++)).
Qed.

Lemma getAllChildren_loop_generation q acc fuel :
  getAllChildren_loop (length q + fuel) s q acc
  = getAllChildren_loop fuel s (nextLevel s q) (acc ++ q).
Proof.
  pose proof (getAllChildren_loop_level q [] acc fuel) as H.
  by rewrite app_nil_r in H.
Qed.

Lemma getAllChildren_loop_needs q rest acc fuel r :
  getAllChildren_loop fuel s (q ++ rest) acc = Some r →
  ∃ fuel', fuel = length q + fuel'.
Proof.
  revert fuel rest acc.
  induction q as [|c q IH]; intros fuel rest acc; [by exists fuel|].
  destruct fuel as [|fuel]; [done|].
  cbn [app getAllChildren_loop]. rewrite <- (assoc_L (++)).
  intros [fuel' ->]%IH. by exists fuel'.
Qed.

(** The result is the concatenation of the successive generations, up
    to one that is empty. *)
Lemma getAllChildren_loop_levels fuel q acc r :
  getAllChildren_loop fuel s q acc = Some r →
  ∃ n, r = acc ++ levels n s q ∧ Nat.iter n (nextLevel s) q = [].
Proof.
  revert q acc.
  induction (lt_wf fuel) as [fuel _ IH]; intros q acc Hr.
  destruct q as [|c q].
  - exists 0. rewrite getAllChildren_loop_nil in Hr. simpl.
    rewrite app_nil_r. by injection Hr as ->.
  - pose proof Hr as Hfuel.
    rewrite <- (app_nil_r (c :: q)) in Hfuel.
    apply getAllChildren_loop_needs in Hfuel as [fuel' ->].
    rewrite getAllChildren_loop_generation in Hr.
    apply IH in Hr as (n & -> & Hn); [|simpl; lia].
    exists (S n). split.
    + cbn [levels]. by rewrite <- (assoc_L (++)).
    + by rewrite Nat.iter_succ_r.
Qed.

(** Loop invariants. *)
Lemma getAllChildren_loop_ind (P : list TreeStoreItem → list TreeStoreItem → Prop) :
  (∀ c q acc, P (c :: q) acc →
              P (q ++ getChildren s (item_id c)) (acc ++ [c])) →
  ∀ fuel q acc r,
    P q acc → getAllChildren_loop fuel s q acc = Some r → P [] r.
Proof.
  intros Hstep fuel.
  induction fuel as [|fuel IH]; intros [|c q] acc r HP; simpl; try done.
  - by intros [= <-].
  - by intros [= <-].
  - intros Hr. eapply IH; [|exact Hr]. by apply Hstep.
Qed.

(** Every emitted node is a seed or a child of an emitted node, in the
    order of emission. *)
Lemma getAllChildren_loop_fixpoint fuel seed q acc r :
  seed ++ nextLevel s acc = acc ++ q →
  getAllChildren_loop fuel s q acc = Some r →
  seed ++ nextLevel s r = r.
Proof.
  intros Hinit Hr.
  pose (P := λ q acc : list TreeStoreItem, seed ++ nextLevel s acc = acc ++ q).
  assert (P [] r) as HP; [|unfold P in HP; by rewrite app_nil_r in HP].
  eapply (getAllChildren_loop_ind P); [|exact Hinit|exact Hr].
  unfold P. intros c q' acc' HP.
  rewrite nextLevel_app, nextLevel_cons.
  change (nextLevel s []) with (@nil TreeStoreItem).
  rewrite app_nil_r, (assoc_L (++) seed), HP.
  by rewrite <- !(assoc_L (++)).
Qed.

Lemma getAllChildren_fixpoint fuel i r :
  getAllChildren fuel s i = Some r →
  getChildren s i ++ nextLevel s r = r.
Proof. apply getAllChildren_loop_fixpoint. by rewrite app_nil_r. Qed.
End Traversal.

(** ** Parent chains are short in an acyclic store *)

Section Chains.
Variable s : TreeStore.

Lemma parent_of_functional x y z : parent_of s x y → parent_of s x z → y = z.
Proof. intros (it & H1 & H2) (it' & H3 & H4). congruence. Qed.

Lemma parent_of_key x y : parent_of s x y → x ∈ Map_keys (items s).
Proof. intros (it & H & _). by eapply Map_get_Some_key. Qed.

Lemma chain_nodes k x y :
  acyclic s → nsteps (parent_of s) k x y →
  ∃ l, NoDup l ∧ length l = k ∧ l ⊆ Map_keys (items s) ∧
       ∀ z, z ∈ l → rtc (parent_of s) x z.
Proof.
  intros Hac.
  induction 1 as [x|n x x1 y Hstep Hrest (l & Hnd & Hlen & Hsub & Hreach)].
  - exists []. split_and!; [constructor | done | |]; by intros ? ?%elem_of_nil.
  - exists (x :: l). split_and!.
    + constructor; [|done]. intros Hx. apply (Hac x).
      eapply tc_rtc_r; [by apply tc_once|]. by apply Hreach.
    + simpl. by rewrite Hlen.
    + intros z [->|Hz]%elem_of_cons; [by eapply parent_of_key | by apply Hsub].
    + intros z [->|Hz]%elem_of_cons; [done|].
      eapply rtc_l; [done|]. by apply Hreach.
Qed.

Lemma chain_bound k x y :
  acyclic s → nsteps (parent_of s) k x y → k ≤ length (items s).
Proof.
  intros Hac Hk.
  destruct (chain_nodes k x y Hac Hk) as (l & Hnd & <- & Hsub & _).
  rewrite <- (length_fmap fst (items s)).
  by apply submseteq_length, NoDup_submseteq.
Qed.

Lemma nextLevel_chain_length k q :
  children_sound s →
  Forall (λ c, chain_length_ge s k (item_id c)) q →
  Forall (λ c, chain_length_ge s (S k) (item_id c)) (nextLevel s q).
Proof.
  intros Hcs Hq. apply Forall_forall. intros d (c & Hc & Hd)%elem_of_nextLevel.
  rewrite Forall_forall in Hq. destruct (Hq c Hc) as [y Hy].
  exists y. eapply nsteps_l; [by apply Hcs|done].
Qed.

(** Without a revisit guard the queue still empties: generation [k]
    holds nodes with [k] links above them, and no chain is longer than
    the store. *)
Lemma getAllChildren_loop_terminates q acc :
  acyclic s → children_sound s →
  ∃ fuel r, getAllChildren_loop fuel s q acc = Some r.
Proof.
  intros Hac Hcs.
  assert (∀ m k q acc,
    k + m = S (length (items s)) →
    Forall (λ c, chain_length_ge s k (item_id c)) q →
    ∃ fuel r, getAllChildren_loop fuel s q acc = Some r) as Hgen.
  { clear q acc. induction m as [|m IH]; intros k q acc Hk Hq.
    - destruct q as [|c q]; [by exists 0, acc|].
      apply Forall_cons in Hq as [[y Hy] _].
      apply chain_bound in Hy; [lia|done].
    - destruct (IH (S k) (nextLevel s q) (acc ++ q)) as (fuel & r & Hr);
        [lia | by apply nextLevel_chain_length |].
      exists (length q + fuel), r.
      by rewrite getAllChildren_loop_generation. }
  apply (Hgen (S (length (items s))) 0); [done|].
  apply Forall_forall. intros c _. exists (item_id c). constructor.
Qed.

Lemma getAllChildren_terminates i :
  acyclic s → children_sound s → ∃ fuel r, getAllChildren fuel s i = Some r.
Proof. apply getAllChildren_loop_terminates. Qed.

(** The parent walk stops within as many steps as the store has items. *)
Lemma getAllParents_loop_terminates x0 :
  acyclic s →
  ∀ m k c cur acc,
    k + m = S (length (items s)) →
    getItem s c = Some cur →
    nsteps (parent_of s) k x0 c →
    ∃ r, getAllParents_loop m s cur acc = Some r.
Proof.
  intros Hac. induction m as [|m IH]; intros k c cur acc Hk Hc Hpath.
  - apply chain_bound in Hpath; [lia|done].
  - simpl. destruct (item_parent cur) as [p|] eqn:Hp; [|by eexists].
    destruct (getItem s p) as [par|] eqn:Hpar; [|by eexists].
    apply (IH (S k) p); [lia | done |].
    eapply nsteps_r; [done|]. by exists cur.
Qed.

Lemma getAllParents_loop_chain fuel cur acc r :
  getAllParents_loop fuel s cur acc = Some r →
  ∃ l, chain s cur (cur :: l) ∧ r = acc ++ l.
Proof.
  revert cur acc.
  induction fuel as [|fuel IH]; intros cur acc; simpl;
    destruct (item_parent cur) as [p|] eqn:Hp;
    try destruct (getItem s p) as [par|] eqn:Hpar; try done;
    try (intros [= <-]; exists []; rewrite app_nil_r; split; [|done]).
  all: try by apply chain_root.
  all: try by eapply chain_dangling.
  intros (l & Hl & ->)%IH. exists (par :: l).
  split; [by eapply chain_step | by rewrite <- (assoc_L (++))].
Qed.

Lemma getAllParents_loop_mono fuel fuel' cur acc r :
  fuel ≤ fuel' →
  getAllParents_loop fuel s cur acc = Some r →
  getAllParents_loop fuel' s cur acc = Some r.
Proof.
  revert fuel' cur acc.
  induction fuel as [|fuel IH]; intros [|fuel'] cur acc Hle; simpl;
    destruct (item_parent cur) as [p|]; try destruct (getItem s p);
    try done; try lia.
  apply IH. lia.
Qed.
End Chains.

(** ** [getAllChildren] computes the descendants *)

Section Descendants.
Variable s : TreeStore.
Hypothesis Hac : acyclic s.
Hypothesis Hci : children_index s.

Lemma children_index_sound : children_sound s.
Proof using Hci. intros p c Hc. apply Hci. by apply list_elem_of_fmap_2. Qed.

Lemma getAllChildren_complete fuel i r x :
  getAllChildren fuel s i = Some r → ancestor s x i → x ∈ ids r.
Proof using Hci.
  intros Hr%getAllChildren_fixpoint Hx. revert Hr.
  induction Hx as [x i Hxi | x y i Hxy Hyi IH]; intros Hr.
  - rewrite <- Hr, fmap_app, elem_of_app. left. by apply Hci.
  - specialize (IH Hr). apply list_elem_of_fmap in IH as (c & -> & Hc).
    rewrite <- Hr, fmap_app, elem_of_app. right.
    apply Hci in Hxy. apply list_elem_of_fmap in Hxy as (d & -> & Hd).
    apply list_elem_of_fmap_2, elem_of_nextLevel. by exists c.
Qed.

Lemma getAllChildren_sound fuel i r :
  getAllChildren fuel s i = Some r →
  NoDup (ids r) ∧ ∀ x, x ∈ ids r → ancestor s x i.
Proof using Hac Hci.
  intros Hr.
  pose (P := λ q acc : list TreeStoreItem,
    NoDup (ids (acc ++ q)) ∧
    (∀ x, x ∈ ids (acc ++ q) → ancestor s x i) ∧
    (∀ x y, x ∈ ids (acc ++ q) → parent_of s x y → y = i ∨ y ∈ ids acc)).
  assert (P [] r) as (H1 & H2 & _);
    [|rewrite app_nil_r in H1, H2; by split].
  eapply (getAllChildren_loop_ind s P); [| |exact Hr].
  - intros c q acc (Hnd & Hanc & Hpar). unfold P.
    assert ((acc ++ [c]) ++ q ++ getChildren s (item_id c)
            = (acc ++ c :: q) ++ getChildren s (item_id c)) as ->
      by by rewrite <- !(assoc_L (++)).
    assert (item_id c ∈ ids (acc ++ c :: q)) as Hc.
    { apply list_elem_of_fmap_2, elem_of_app. right. left. }
    assert (item_id c ∉ ids acc) as Hcacc.
    { rewrite fmap_app, fmap_cons in Hnd.
      apply NoDup_app in Hnd as (_ & Hdis & _).
      intros Hin. apply (Hdis _ Hin). left. }
    split_and!.
    + rewrite fmap_app. apply NoDup_app. split_and!; [done | | apply Hci].
      intros x Hx Hch. apply Hci in Hch.
      destruct (Hpar x (item_id c) Hx Hch) as [Hi|Hin]; [|done].
      apply (Hac i). rewrite <- Hi at 1. by apply Hanc.
    + intros x. rewrite fmap_app, elem_of_app. intros [Hx|Hx]; [by apply Hanc|].
      apply Hci in Hx. eapply tc_l; [exact Hx|]. by apply Hanc.
    + intros x y Hx Hxy. rewrite fmap_app in Hx.
      rewrite (fmap_app _ acc). setoid_rewrite elem_of_app.
      apply elem_of_app in Hx as [Hx|Hx].
      * destruct (Hpar x y Hx Hxy) as [?|?]; auto.
      * apply Hci in Hx. right. right.
        rewrite (parent_of_functional s x y (item_id c) Hxy Hx). simpl. left.
  - split_and!.
    + apply Hci.
    + intros x Hx. apply tc_once. by apply Hci.
    + intros x y Hx Hxy. left. apply Hci in Hx.
      by apply (parent_of_functional s x).
Qed.

Lemma getAllChildren_descendants fuel i r :
  getAllChildren fuel s i = Some r →
  NoDup (ids r) ∧ ∀ x, x ∈ ids r ↔ ancestor s x i.
Proof using Hac Hci.
  intros Hr. destruct (getAllChildren_sound fuel i r Hr) as [Hnd Hs].
  split; [done|]. intros x. split; [apply Hs|].
  by apply getAllChildren_complete with fuel.
Qed.
End Descendants.

(** ** What the mutating calls compute *)

Lemma addItem_unfold fuel item s :
  addItem fuel item s =
  if Map_has (item_id item) (items s)
  then Throws (ItemAlreadyExists (item_id item)) s
  else match item_parent item with
       | None => Returns tt (set_items (Map_set (item_id item) item) s)
       | Some p =>
           if Map_has p (items s) then
             match wouldCreateCircularReference fuel s (item_id item) p with
             | None => OutOfFuel
             | Some true => Throws CircularReference s
             | Some false =>
                 Returns tt (set_childrenMap (children_push p item)
                               (set_items (Map_set (item_id item) item) s))
             end
           else Throws (ParentNotFound p) s
       end.
Proof.
  unfold addItem. unfold_M.
  destruct (Map_has (item_id item) (items s)); [done|].
  destruct (item_parent item) as [p|]; [|done]. unfold_M.
  destruct (Map_has p (items s)); [|done]. simpl.
  destruct (wouldCreateCircularReference _ _ _ _) as [[]|]; done.
Qed.

Lemma updateItem_unfold fuel u s :
  updateItem fuel u s =
  match getItem s (item_id u) with
  | None => Throws (ItemNotFound (item_id u)) s
  | Some e =>
      let relinked :=
        if bool_decide (item_parent e = item_parent u) then s
        else
          let s1 := match item_parent e with
                    | Some old =>
                        set_childrenMap (children_splice old (item_id u)) s
                    | None => s
                    end in
          match item_parent u with
          | Some p => set_childrenMap (children_push p u) s1
          | None => s1
          end in
      let finished := Returns tt (set_items (Map_set (item_id u) u) relinked) in
      match item_parent u with
      | None => finished
      | Some p =>
          if Map_has p (items s) then
            match wouldCreateCircularReference fuel s (item_id u) p with
            | None => OutOfFuel
            | Some true => Throws CircularReference s
            | Some false => finished
            end
          else Throws (ParentNotFound p) s
      end
  end.
Proof.
  unfold updateItem. unfold_M.
  destruct (getItem s (item_id u)) as [e|]; [|done]. cbn zeta.
  destruct (item_parent u) as [p|] eqn:Hp; unfold_M.
  - destruct (Map_has p (items s)); [|done]. simpl.
    destruct (wouldCreateCircularReference _ _ _ _) as [[]|]; try done.
    destruct (bool_decide (item_parent e = Some p)); simpl; [done|].
    by destruct (item_parent e).
  - destruct (bool_decide (item_parent e = None)); simpl; [done|].
    by destruct (item_parent e).
Qed.

Lemma removeItem_unfold fuel i s :
  removeItem fuel i s =
  match getItem s i with
  | None => Returns tt s
  | Some item =>
      match getAllChildren fuel s i with
      | None => OutOfFuel
      | Some allChildren =>
          let s2 := set_childrenMap (delete i)
                      (set_items (Map_delete i) (delete_each allChildren s)) in
          Returns tt
            match item_parent item with
            | Some p => set_childrenMap (children_splice p i) s2
            | None => s2
            end
      end
  end.
Proof.
  unfold removeItem. unfold_M.
  destruct (getItem s i) as [item|]; [|done]. unfold_M.
  destruct (getAllChildren fuel s i) as [D|]; [|done]. cbn zeta.
  by destruct (item_parent item).
Qed.

(** ** Cascading deletion *)

Lemma Map_delete_filter {V} k (m : list (Id * V)) :
  Map_delete k m = filter (λ kv, kv.1 ≠ k) m.
Proof.
  induction m as [|[k0 v0] m IH]; [done|]. cbn [Map_delete].
  case_decide; subst.
  - rewrite filter_cons_False; [done | by intros []].
  - rewrite filter_cons_True by done. by f_equal.
Qed.

Lemma delete_each_snoc D c s :
  delete_each (D ++ [c]) s
  = set_childrenMap (delete (item_id c))
      (set_items (Map_delete (item_id c)) (delete_each D s)).
Proof. unfold delete_each. by rewrite foldl_app. Qed.

Lemma delete_each_getItem D s q :
  getItem (delete_each D s) q
  = if decide (q ∈ ids D) then None else getItem s q.
Proof.
  induction D as [|c D IH] using rev_ind.
  - rewrite decide_False; [done | apply not_elem_of_nil].
  - rewrite delete_each_snoc, getItem_set_childrenMap, getItem_delete, IH.
    destruct (decide (q ∈ ids (D ++ [c]))) as [Hin|Hin];
      rewrite fmap_app, elem_of_app in Hin; simpl in Hin;
      rewrite list_elem_of_singleton in Hin;
      repeat case_decide; try done; tauto.
Qed.

Lemma delete_each_getChildren D s q :
  getChildren (delete_each D s) q
  = if decide (q ∈ ids D) then [] else getChildren s q.
Proof.
  induction D as [|c D IH] using rev_ind.
  - rewrite decide_False; [done | apply not_elem_of_nil].
  - rewrite delete_each_snoc, getChildren_delete, getChildren_set_items, IH.
    destruct (decide (q ∈ ids (D ++ [c]))) as [Hin|Hin];
      rewrite fmap_app, elem_of_app in Hin; simpl in Hin;
      rewrite list_elem_of_singleton in Hin;
      repeat case_decide; try done; tauto.
Qed.

Lemma delete_each_items D s :
  items (delete_each D s) = filter (λ kv, kv.1 ∉ ids D) (items s).
Proof.
  induction D as [|c D IH] using rev_ind.
  - simpl. symmetry. induction (items s) as [|kv m IHm]; [done|].
    rewrite filter_cons_True; [by f_equal | apply not_elem_of_nil].
  - rewrite delete_each_snoc. simpl. rewrite Map_delete_filter, IH.
    rewrite list_filter_filter. apply list_filter_iff. intros [k v]. simpl.
    rewrite fmap_app, elem_of_app. cbn [fmap list_fmap].
    rewrite list_elem_of_singleton. tauto.
Qed.

(** ** Loops that never stop *)

Lemma getAllChildren_loop_diverges s (P : list TreeStoreItem → Prop) :
  (∀ q, P q → ∃ c q', q = c :: q' ∧ P (q' ++ getChildren s (item_id c))) →
  ∀ fuel q acc, P q → getAllChildren_loop fuel s q acc = None.
Proof.
  intros Hstep fuel.
  induction fuel as [|fuel IH]; intros q acc HP;
    destruct (Hstep q HP) as (c & q' & -> & HP'); [done|].
  simpl. by apply IH.
Qed.

Lemma getAllParents_loop_diverges s (P : TreeStoreItem → Prop) :
  (∀ cur, P cur → ∃ p par,
      item_parent cur = Some p ∧ getItem s p = Some par ∧ P par) →
  ∀ fuel cur acc, P cur → getAllParents_loop fuel s cur acc = None.
Proof.
  intros Hstep fuel.
  induction fuel as [|fuel IH]; intros cur acc HP;
    destruct (Hstep cur HP) as (p & par & Hp & Hpar & HP');
    simpl; rewrite Hp, Hpar; [done|].
  by apply IH.
Qed.

(** ** Bulk construction *)

Lemma initialize_items_getItem l st x :
  getItem (foldl (λ st item, set_items (Map_set (item_id item) item) st) st l) x
  = match last (filter (λ it, item_id it = x) l) with
    | Some it => Some it
    | None => getItem st x
    end.
Proof.
  revert st. induction l as [|a l IH]; intros st; [done|].
  cbn [foldl]. rewrite IH, getItem_set, filter_cons.
  destruct (decide (item_id a = x)) as [<-|Hne].
  - rewrite last_cons, decide_True by done. by destruct (last _).
  - by rewrite decide_False by done.
Qed.

Lemma initialize_items_keys l st :
  NoDup (Map_keys (items st)) →
  NoDup (Map_keys (items
    (foldl (λ st item, set_items (Map_set (item_id item) item) st) st l))).
Proof.
  revert st. induction l as [|a l IH]; intros st Hnd; [done|].
  cbn [foldl]. apply IH. simpl. by apply Map_keys_set_NoDup.
Qed.

Lemma initialize_children_getChildren l st q :
  getChildren
    (foldl (λ st item,
              match item_parent item with
              | Some parentId => set_childrenMap (children_push parentId item) st
              | None => st
              end) st l) q
  = getChildren st q ++ filter (λ it, item_parent it = Some q) l.
Proof.
  revert st. induction l as [|a l IH]; intros st.
  - by rewrite app_nil_r.
  - cbn [foldl]. rewrite IH, filter_cons.
    destruct (item_parent a) as [p|] eqn:Hp.
    + rewrite getChildren_push.
      destruct (decide (q = p)) as [->|Hne].
      * rewrite decide_True by done. by rewrite <- (assoc_L (++)).
      * rewrite decide_False by congruence. done.
    + by rewrite decide_False by done.
Qed.

Lemma initialize_children_items l st :
  items
    (foldl (λ st item,
              match item_parent item with
              | Some parentId => set_childrenMap (children_push parentId item) st
              | None => st
              end) st l)
  = items st.
Proof.
  revert st. induction l as [|a l IH]; intros st; [done|].
  cbn [foldl]. rewrite IH. by destruct (item_parent a).
Qed.

Lemma new_TreeStore_getItem l x :
  getItem (new_TreeStore l) x = last (filter (λ it, item_id it = x) l).
Proof.
  unfold new_TreeStore, initialize, getItem at 1.
  rewrite initialize_children_items. cbn [set_childrenMap items].
  pose proof (initialize_items_getItem l {| items := []; childrenMap := ∅ |} x) as H.
  unfold getItem at 1 in H. rewrite H. by destruct (last _).
Qed.

Lemma new_TreeStore_getChildren l q :
  getChildren (new_TreeStore l) q = filter (λ it, item_parent it = Some q) l.
Proof.
  unfold new_TreeStore, initialize. by rewrite initialize_children_getChildren.
Qed.

Lemma new_TreeStore_unique l : unique_ids (new_TreeStore l).
Proof.
  split.
  - unfold new_TreeStore, initialize. rewrite initialize_children_items.
    cbn [set_childrenMap items]. apply initialize_items_keys. constructor.
  - intros k it. rewrite new_TreeStore_getItem. intros Hlast.
    apply last_Some_elem_of, list_elem_of_filter in Hlast. tauto.
Qed.

Lemma Map_elem_get {V} k (v : V) m :
  NoDup (Map_keys m) → (k, v) ∈ m → Map_get k m = Some v.
Proof.
  unfold Map_keys. induction m as [|[k0 v0] m IH]; [by intros _ ?%elem_of_nil|].
  rewrite fmap_cons, NoDup_cons. intros [Hk0 Hnd] [Heq|Hin]%elem_of_cons.
  - injection Heq as -> ->. simpl. by rewrite decide_True.
  - simpl. case_decide as Hk; [|by apply IH]. subst k0.
    destruct Hk0. apply list_elem_of_fmap. by exists (k, v).
Qed.

Lemma unique_ids_getAll s :
  unique_ids s → ids (getAll s) = Map_keys (items s).
Proof.
  intros [Hnd Hid]. unfold getAll, Map_values, Map_keys.
  rewrite <- list_fmap_compose. apply Forall_fmap_ext_1, Forall_forall.
  intros [k it] Hin. simpl. apply Hid. by apply Map_elem_get.
Qed.

(** ** Validation precedes mutation *)

Lemma Map_set_absent {V} k (v : V) m :
  Map_get k m = None → Map_set k v m = m ++ [(k, v)].
Proof.
  induction m as [|[k0 v0] m IH]; [done|]. simpl.
  case_decide; [done|]. intros Hm. by rewrite IH.
Qed.

Lemma Map_has_getItem s k : Map_has k (items s) = bool_decide (is_Some (getItem s k)).
Proof. done. Qed.

Lemma some_child_id p D :
  existsb (λ child, bool_decide (item_id child = p)) D = bool_decide (p ∈ ids D).
Proof.
  induction D as [|c D IH].
  - symmetry. apply bool_decide_eq_false_2, not_elem_of_nil.
  - cbn [existsb]. rewrite IH, fmap_cons. apply eq_true_iff_eq.
    rewrite orb_true_iff, !bool_decide_eq_true, elem_of_cons. naive_solver.
Qed.

Lemma wouldCreateCircularReference_Some fuel s i p D :
  getAllChildren fuel s i = Some D →
  wouldCreateCircularReference fuel s i p
  = Some (bool_decide (p = i ∨ p ∈ ids D)).
Proof.
  intros HD. unfold wouldCreateCircularReference. rewrite HD. simpl.
  rewrite some_child_id. case_decide as Hip.
  - subst. by rewrite bool_decide_eq_true_2 by auto.
  - f_equal. apply eq_true_iff_eq. rewrite !bool_decide_eq_true. naive_solver.
Qed.

Lemma wouldCreateCircularReference_None fuel s i p :
  wouldCreateCircularReference fuel s i p = None ↔
  i ≠ p ∧ getAllChildren fuel s i = None.
Proof.
  unfold wouldCreateCircularReference. case_decide.
  - split; [done | by intros []].
  - destruct (getAllChildren fuel s i); simpl; split; try done.
    by intros [].
Qed.

Lemma addItem_Throws fuel item s e s' :
  addItem fuel item s = Throws e s' →
  s' = s ∧
  match e with
  | ItemAlreadyExists j => j = item_id item ∧ is_Some (getItem s (item_id item))
  | ParentNotFound p =>
      getItem s (item_id item) = None ∧ item_parent item = Some p ∧
      getItem s p = None
  | CircularReference =>
      getItem s (item_id item) = None ∧
      ∃ p, item_parent item = Some p ∧ is_Some (getItem s p) ∧
           (p = item_id item ∨
            ∃ D, getAllChildren fuel s (item_id item) = Some D ∧ p ∈ ids D)
  | ItemNotFound _ => False
  end.
Proof.
  rewrite addItem_unfold, !Map_has_getItem.
  case_bool_decide as Hi.
  { intros [= <- <-]. eauto. }
  apply eq_None_not_Some in Hi.
  destruct (item_parent item) as [p|] eqn:Hp; [|done].
  rewrite Map_has_getItem. case_bool_decide as Hp'.
  - destruct (wouldCreateCircularReference _ _ _ _) as [[]|] eqn:Hw; try done.
    intros [= <- <-]. split_and!; [done..|]. exists p. split_and!; [done..|].
    unfold wouldCreateCircularReference in Hw.
    case_decide; [by left|]. right.
    destruct (getAllChildren fuel s (item_id item)) as [D|]; [|done].
    exists D. split; [done|]. simpl in Hw. injection Hw as Hw.
    rewrite some_child_id in Hw. by apply bool_decide_eq_true in Hw.
  - apply eq_None_not_Some in Hp'. by intros [= <- <-].
Qed.

Lemma updateItem_Throws fuel u s e s' :
  updateItem fuel u s = Throws e s' →
  s' = s ∧
  match e with
  | ItemNotFound j => j = item_id u ∧ getItem s (item_id u) = None
  | ParentNotFound p =>
      is_Some (getItem s (item_id u)) ∧ item_parent u = Some p ∧
      getItem s p = None
  | CircularReference =>
      is_Some (getItem s (item_id u)) ∧
      ∃ p, item_parent u = Some p ∧ is_Some (getItem s p) ∧
           (p = item_id u ∨
            ∃ D, getAllChildren fuel s (item_id u) = Some D ∧ p ∈ ids D)
  | ItemAlreadyExists _ => False
  end.
Proof.
  rewrite updateItem_unfold.
  destruct (getItem s (item_id u)) as [e0|] eqn:He.
  2:{ by intros [= <- <-]. }
  cbn zeta. destruct (item_parent u) as [p|] eqn:Hp; [|done].
  rewrite Map_has_getItem. case_bool_decide as Hp'.
  - destruct (wouldCreateCircularReference _ _ _ _) as [[]|] eqn:Hw; try done.
    intros [= <- <-]. split_and!; [done..|]. exists p. split_and!; [done..|].
    unfold wouldCreateCircularReference in Hw.
    case_decide; [by left|]. right.
    destruct (getAllChildren fuel s (item_id u)) as [D|]; [|done].
    exists D. split; [done|]. simpl in Hw. injection Hw as Hw.
    rewrite some_child_id in Hw. by apply bool_decide_eq_true in Hw.
  - apply eq_None_not_Some in Hp'. by intros [= <- <-].
Qed.

(** C3 — a failed [addItem] or [updateItem] throws before anything is
    written: the store left behind is the store the call started from, so
    [getAll], [getItem] and [getChildren] answer as before. *)
Theorem failed_mutation_leaves_store fuel item s e s' :
  addItem fuel item s = Throws e s' ∨ updateItem fuel item s = Throws e s' →
  s' = s ∧
  getAll s' = getAll s ∧
  (∀ i, getItem s' i = getItem s i) ∧
  (∀ i, getChildren s' i = getChildren s i).
Proof.
  intros [[-> _]%addItem_Throws | [-> _]%updateItem_Throws]; done.
Qed.

(** The theorem at work: adding a second item [1] to the fixture fails. *)
Lemma failed_mutation_leaves_store_witness :
  let dup := mkItem (IdNum 1) None "dup" [] in
  getAll fixture = getAll fixture ∧
  (∀ i, getItem fixture i = getItem fixture i) ∧
  (∀ i, getChildren fixture i = getChildren fixture i).
Proof.
  intros dup.
  apply (failed_mutation_leaves_store 0 dup fixture
           (ItemAlreadyExists (IdNum 1)) fixture).
  left. vm_compute. reflexivity.
Defined.

(** ** [addItem] *)

Lemma orphan_cycle_diverges :
  diverges (λ fuel, getAllChildren fuel orphan_cycle (IdNum 3)).
Proof.
  intros fuel. unfold getAllChildren.
  apply getAllChildren_loop_diverges with
    (P := λ q, ∃ c, q = [c] ∧ (item_id c = IdNum 1 ∨ item_id c = IdNum 2)).
  - intros q (c & -> & Hc). exists c, []. split; [done|].
    destruct Hc as [-> | ->]; eexists; (split; [vm_compute; reflexivity|]); auto.
  - eexists. split; [vm_compute; reflexivity|]. auto.
Qed.

(** C4, counterexample — on a store built from a list that repeats an
    identifier, [addItem] passes the first two checks and then never
    returns: it neither fails with [CircularReference] nor succeeds. *)
Lemma addItem_hangs_on_orphan_cycle :
  getItem orphan_cycle (IdNum 3) = None ∧
  is_Some (getItem orphan_cycle (IdNum 1)) ∧
  hangs (λ fuel, addItem fuel (mkItem (IdNum 3) (Some (IdNum 1)) "c" []))
        orphan_cycle.
Proof.
  split_and!; [done | by eexists |].
  intros fuel. rewrite addItem_unfold. cbn [item_id item_parent].
  replace (Map_has (IdNum 3) (items orphan_cycle)) with false
    by (vm_compute; reflexivity).
  replace (Map_has (IdNum 1) (items orphan_cycle)) with true
    by (vm_compute; reflexivity).
  assert (wouldCreateCircularReference fuel orphan_cycle (IdNum 3) (IdNum 1)
          = None) as ->; [|done].
  apply wouldCreateCircularReference_None. split; [done|].
  apply orphan_cycle_diverges.
Qed.

(** C4, amended — [addItem] fails with [ItemAlreadyExists] exactly when the
    identifier is stored; otherwise with [ParentNotFound] exactly when the
    parent is non-null and not stored; otherwise, when the parent is null
    it succeeds, and when [getAllChildren] of the identifier returns [D] it
    fails with [CircularReference] exactly when the parent is the
    identifier itself or occurs in [D], and succeeds if not.  Success puts
    the item last in the primary index and last in its parent's child
    list, leaving every other child list alone.  Each failure leaves the
    store untouched and arises only from its own condition.  In an acyclic
    store whose child lists hold only stored children of their key the
    call does return or throw. *)
Theorem addItem_outcome s item :
  let i := item_id item in
  let stored := set_items (Map_set i item) s in
  (is_Some (getItem s i) →
     ∀ fuel, addItem fuel item s = Throws (ItemAlreadyExists i) s) ∧
  (getItem s i = None →
     ∀ p, item_parent item = Some p → getItem s p = None →
     ∀ fuel, addItem fuel item s = Throws (ParentNotFound p) s) ∧
  (getItem s i = None → item_parent item = None →
     ∀ fuel, addItem fuel item s = Returns tt stored) ∧
  (getItem s i = None →
     ∀ p, item_parent item = Some p → is_Some (getItem s p) →
     ∀ fuel D, getAllChildren fuel s i = Some D →
       addItem fuel item s
       = if decide (p = i ∨ p ∈ ids D) then Throws CircularReference s
         else Returns tt (set_childrenMap (children_push p item) stored)) ∧
  (getItem s i = None → items stored = items s ++ [(i, item)]) ∧
  (∀ p q, getChildren (set_childrenMap (children_push p item) stored) q
          = if decide (q = p) then getChildren s p ++ [item]
            else getChildren s q) ∧
  (acyclic s → children_sound s → ∃ fuel, addItem fuel item s ≠ OutOfFuel) ∧
  (∀ fuel e s', addItem fuel item s = Throws e s' →
     s' = s ∧
     match e with
     | ItemAlreadyExists j => j = i ∧ is_Some (getItem s i)
     | ParentNotFound p =>
         getItem s i = None ∧ item_parent item = Some p ∧ getItem s p = None
     | CircularReference =>
         getItem s i = None ∧
         ∃ p, item_parent item = Some p ∧ is_Some (getItem s p) ∧
              (p = i ∨ ∃ D, getAllChildren fuel s i = Some D ∧ p ∈ ids D)
     | ItemNotFound _ => False
     end).
Proof.
  intros i stored. subst i stored. split_and!.
  - intros Hi fuel. rewrite addItem_unfold, Map_has_getItem.
    by rewrite bool_decide_eq_true_2.
  - intros Hi p Hp Hp' fuel. rewrite addItem_unfold, Hp, !Map_has_getItem.
    rewrite !bool_decide_eq_false_2; [done | |]; rewrite ?Hp', ?Hi;
      by intros [? ?].
  - intros Hi Hp fuel. rewrite addItem_unfold, Hp, Map_has_getItem.
    rewrite bool_decide_eq_false_2; [done|]. rewrite Hi. by intros [? ?].
  - intros Hi p Hp Hp' fuel D HD.
    rewrite addItem_unfold, Hp, !Map_has_getItem.
    rewrite bool_decide_eq_false_2 by (rewrite Hi; by intros [? ?]).
    rewrite bool_decide_eq_true_2 by done.
    rewrite (wouldCreateCircularReference_Some _ _ _ _ D HD).
    by case_decide; [rewrite bool_decide_eq_true_2 | rewrite bool_decide_eq_false_2].
  - intros Hi. simpl. by apply Map_set_absent.
  - intros p q. by rewrite getChildren_push.
  - intros Hac Hcs.
    destruct (getAllChildren_terminates s (item_id item) Hac Hcs)
      as (fuel & D & HD).
    exists fuel. rewrite addItem_unfold.
    destruct (Map_has (item_id item) (items s)); [done|].
    destruct (item_parent item) as [p|]; [|done].
    destruct (Map_has p (items s)); [|done].
    rewrite (wouldCreateCircularReference_Some _ _ _ _ D HD).
    by destruct (bool_decide _).
  - intros fuel e s'. apply addItem_Throws.
Qed.

(** ** [getAllParents] *)

Lemma chain_head s cur l : chain s cur l → ∃ l', l = cur :: l'.
Proof. destruct 1; eauto. Qed.

Lemma getAllParents_loop_of_chain s cur l :
  chain s cur l →
  ∀ acc, ∃ fuel, getAllParents_loop fuel s cur acc = Some (acc ++ tail l).
Proof.
  induction 1 as [cur Hp | cur p Hp Hnone | cur p par l Hp Hpar Hl IH];
    intros acc.
  - exists 0. simpl. by rewrite Hp, app_nil_r.
  - exists 0. simpl. by rewrite Hp, Hnone, app_nil_r.
  - destruct (IH (acc ++ [par])) as [fuel Hfuel].
    exists (S fuel). simpl. rewrite Hp, Hpar, Hfuel.
    destruct (chain_head _ _ _ Hl) as [l' ->]. simpl.
    by rewrite <- (assoc_L (++)).
Qed.

Lemma two_cycle_diverges :
  diverges (λ fuel, getAllParents fuel two_cycle (IdNum 1)).
Proof.
  intros fuel. unfold getAllParents.
  replace (getItem two_cycle (IdNum 1))
    with (Some (mkItem (IdNum 1) (Some (IdNum 2)) "a" []))
    by (vm_compute; reflexivity).
  apply getAllParents_loop_diverges with
    (P := λ c, c = mkItem (IdNum 1) (Some (IdNum 2)) "a" [] ∨
               c = mkItem (IdNum 2) (Some (IdNum 1)) "b" []); [|by left].
  intros cur [-> | ->]; do 2 eexists;
    (split_and!; [reflexivity | vm_compute; reflexivity | auto]).
Qed.

(** C6, counterexample — construction accepts a list whose parent links
    loop; there the walk from a stored item never meets a null or dangling
    parent and [getAllParents] returns nothing. *)
Lemma getAllParents_hangs_on_two_cycle :
  is_Some (getItem two_cycle (IdNum 1)) ∧
  diverges (λ fuel, getAllParents fuel two_cycle (IdNum 1)).
Proof. split; [by eexists | apply two_cycle_diverges]. Qed.

(** C6, amended — [getAllParents] of an unknown identifier is empty.  For a
    stored item, whenever its parent links reach a null or dangling parent
    after finitely many steps (in particular in every acyclic store, within
    as many steps as the store has items), the call returns that chain:
    the item itself, then its stored parent, and so on upwards, ending
    without failure at the first null or dangling parent; and whatever it
    returns is that chain.  On the fixture, [getAllParents 7] is
    [7, 4, A, 1]. *)
Theorem getAllParents_chain s i :
  (getItem s i = None → ∀ fuel, getAllParents fuel s i = Some []) ∧
  (∀ it l, getItem s i = Some it → chain s it l →
     ∃ fuel, getAllParents fuel s i = Some l) ∧
  (∀ it fuel r, getItem s i = Some it →
     getAllParents fuel s i = Some r → chain s it r) ∧
  (∀ it, getItem s i = Some it → acyclic s →
     ∃ l, chain s it l ∧
          getAllParents (S (length (items s))) s i = Some l) ∧
  fmap (M := list) item_id <$> getAllParents 3 fixture (IdNum 7)
  = Some [IdNum 7; IdNum 4; A; IdNum 1].
Proof.
  split_and!.
  - intros Hi fuel. unfold getAllParents. by rewrite Hi.
  - intros it l Hi Hl. unfold getAllParents. rewrite Hi.
    destruct (getAllParents_loop_of_chain s it l Hl [it]) as [fuel Hfuel].
    exists fuel. rewrite Hfuel.
    by destruct (chain_head _ _ _ Hl) as [l' ->].
  - intros it fuel r Hi. unfold getAllParents. rewrite Hi.
    by intros (l & Hl & ->)%getAllParents_loop_chain.
  - intros it Hi Hac. unfold getAllParents. rewrite Hi.
    destruct (getAllParents_loop_terminates s i Hac
                (S (length (items s))) 0 i it [it]) as [r Hr];
      [done | done | constructor |].
    exists r. split; [|done].
    by apply getAllParents_loop_chain in Hr as (l & Hl & ->).
  - vm_compute. reflexivity.
Qed.

(** ** Termination of the two traversals *)

Lemma stale_children_parent_of x y :
  parent_of stale_children x y → x = IdNum 1 ∧ y = IdNum 2.
Proof.
  intros (it & Hget & Hp). unfold getItem in Hget.
  replace (items stale_children)
    with [(IdNum 1, mkItem (IdNum 1) (Some (IdNum 2)) "a" []);
          (IdNum 2, mkItem (IdNum 2) None "b" [])] in Hget
    by (vm_compute; reflexivity).
  simpl in Hget. repeat case_decide; simplify_eq; simpl in *; by simplify_eq.
Qed.

Lemma stale_children_acyclic : acyclic stale_children.
Proof.
  intros x Hx. inversion Hx as [? ? H1 | ? y ? H1 H2]; subst.
  - apply stale_children_parent_of in H1 as [-> [=]].
  - apply stale_children_parent_of in H1 as [-> ->].
    inversion H2 as [? ? H3 | ? ? ? H3 _]; subst;
      by apply stale_children_parent_of in H3 as [[=] _].
Qed.

Lemma stale_children_diverges :
  diverges (λ fuel, getAllChildren fuel stale_children (IdNum 1)).
Proof.
  intros fuel. unfold getAllChildren.
  apply getAllChildren_loop_diverges with
    (P := λ q, ∃ c, q = [c] ∧ (item_id c = IdNum 1 ∨ item_id c = IdNum 2)).
  - intros q (c & -> & Hc). exists c, []. split; [done|].
    destruct Hc as [-> | ->]; eexists; (split; [vm_compute; reflexivity|]); auto.
  - eexists. split; [vm_compute; reflexivity|]. auto.
Qed.

(** C9, counterexample — a store built from a list that repeats an
    identifier is acyclic (no item is its own ancestor: the parent links
    are 1 → 2 → null), yet its child lists still hold the overwritten
    entry and [getAllChildren] never empties its queue. *)
Lemma acyclic_store_with_endless_traversal :
  acyclic stale_children ∧
  diverges (λ fuel, getAllChildren fuel stale_children (IdNum 1)).
Proof. split; [apply stale_children_acyclic | apply stale_children_diverges]. Qed.

(** C9, amended — in a store where no item is its own ancestor, the parent
    walk of [getAllParents] stops within as many steps as the store has
    items; if, in addition, every child-list entry is a stored item whose
    parent is that list's key (part of invariant 4), the queue of
    [getAllChildren] empties after finitely many dequeues.  Neither needs
    a revisit guard. *)
Theorem traversals_terminate s i :
  acyclic s →
  (children_sound s → ∃ fuel r, getAllChildren fuel s i = Some r) ∧
  (∃ r, getAllParents (S (length (items s))) s i = Some r).
Proof.
  intros Hac. split.
  - intros Hcs. by apply getAllChildren_terminates.
  - unfold getAllParents. destruct (getItem s i) as [it|] eqn:Hi; [|by eexists].
    apply (getAllParents_loop_terminates s i Hac _ 0 i); [done | done | constructor].
Qed.

(** ** [removeItem] *)

Lemma removeItem_Returns fuel i s item D :
  getItem s i = Some item → getAllChildren fuel s i = Some D →
  ∃ s', removeItem fuel i s = Returns tt s' ∧
    items s' = filter (λ kv, kv.1 ∉ i :: ids D) (items s) ∧
    (∀ q, getItem s' q
          = if decide (q ∈ i :: ids D) then None else getItem s q) ∧
    (∀ q, getChildren s' q
          = if decide (q ∈ i :: ids D) then []
            else if decide (item_parent item = Some q)
                 then remove_child i (getChildren s q)
            else getChildren s q).
Proof.
  intros Hi HD. rewrite removeItem_unfold, Hi, HD. cbn zeta.
  eexists. split; [reflexivity|].
  assert (∀ q, getChildren
                 (set_childrenMap (delete i)
                    (set_items (Map_delete i) (delete_each D s))) q
               = if decide (q ∈ i :: ids D) then [] else getChildren s q) as Hch.
  { intros q. rewrite getChildren_delete, getChildren_set_items,
      delete_each_getChildren.
    destruct (decide (q ∈ i :: ids D)) as [Hin|Hin];
      rewrite elem_of_cons in Hin; repeat case_decide; try done; tauto. }
  split_and!.
  - transitivity (items (set_childrenMap (delete i)
                    (set_items (Map_delete i) (delete_each D s))));
      [by destruct (item_parent item)|].
    simpl. rewrite Map_delete_filter, delete_each_items, list_filter_filter.
    apply list_filter_iff. intros [k v]. simpl. rewrite elem_of_cons. tauto.
  - intros q.
    transitivity (getItem (set_childrenMap (delete i)
                    (set_items (Map_delete i) (delete_each D s))) q);
      [by destruct (item_parent item)|].
    rewrite getItem_set_childrenMap, getItem_delete, delete_each_getItem.
    destruct (decide (q ∈ i :: ids D)) as [Hin|Hin];
      rewrite elem_of_cons in Hin; repeat case_decide; try done; tauto.
  - intros q. destruct (item_parent item) as [p|].
    + rewrite getChildren_splice, !Hch.
      destruct (decide (q = p)) as [->|Hne].
      * rewrite (decide_True (P := Some p = Some p)) by done.
        by case_decide.
      * rewrite (decide_False (P := Some p = Some q)) by congruence. done.
    + rewrite Hch. by rewrite (decide_False (P := None = Some q)).
Qed.

(** C7, counterexample — on a store built from a list that repeats an
    identifier, [removeItem] of a stored item never returns, so nothing is
    deleted. *)
Lemma removeItem_hangs_on_stale_children :
  is_Some (getItem stale_children (IdNum 1)) ∧
  hangs (λ fuel, removeItem fuel (IdNum 1)) stale_children.
Proof.
  split; [by eexists|]. intros fuel. rewrite removeItem_unfold.
  replace (getItem stale_children (IdNum 1))
    with (Some (mkItem (IdNum 1) (Some (IdNum 2)) "a" []))
    by (vm_compute; reflexivity).
  by rewrite stale_children_diverges.
Qed.

(** C7, amended — [removeItem] never throws; on an absent identifier it
    returns the store as it is.  On a stored one, whenever
    [getAllChildren] of it returns [D] (as it does in every acyclic store
    with sound child lists), the call returns a store from which the
    identifier and every identifier of [D] are gone in both indices, the
    other items keeping their order; the first entry for the identifier is
    dropped from its parent's child list, the other siblings keeping
    theirs; all other child lists are as before.  On the fixture,
    [removeItem A] removes 6 items and leaves [1] and [3], with [3] the
    only child of [1]. *)
Theorem removeItem_cascade s i :
  (∀ fuel e s', removeItem fuel i s ≠ Throws e s') ∧
  (getItem s i = None → ∀ fuel, removeItem fuel i s = Returns tt s) ∧
  (∀ item fuel D,
     getItem s i = Some item → getAllChildren fuel s i = Some D →
     ∃ s', removeItem fuel i s = Returns tt s' ∧
       items s' = filter (λ kv, kv.1 ∉ i :: ids D) (items s) ∧
       (∀ q, getItem s' q
             = if decide (q ∈ i :: ids D) then None else getItem s q) ∧
       (∀ q, getChildren s' q
             = if decide (q ∈ i :: ids D) then []
               else if decide (item_parent item = Some q)
                    then remove_child i (getChildren s q)
               else getChildren s q)) ∧
  (acyclic s → children_sound s →
     ∃ fuel s', removeItem fuel i s = Returns tt s') ∧
  (∃ s', removeItem 5 A fixture = Returns tt s' ∧
         ids (getAll s') = [IdNum 1; IdNum 3] ∧
         length (getAll fixture) - length (getAll s') = 6 ∧
         ids (getChildren s' (IdNum 1)) = [IdNum 3]).
Proof.
  split_and!.
  - intros fuel e s'. rewrite removeItem_unfold.
    destruct (getItem s i); [|done]. by destruct (getAllChildren fuel s i).
  - intros Hi fuel. by rewrite removeItem_unfold, Hi.
  - intros item fuel D. apply removeItem_Returns.
  - intros Hac Hcs. destruct (getItem s i) as [item|] eqn:Hi.
    + destruct (getAllChildren_terminates s i Hac Hcs) as (fuel & D & HD).
      destruct (removeItem_Returns fuel i s item D Hi HD) as (s' & Hs' & _).
      by exists fuel, s'.
    + exists 0, s. by rewrite removeItem_unfold, Hi.
  - eexists. split; [vm_compute; reflexivity|]. by vm_compute.
Qed.

(** ** [updateItem] *)

Lemma Map_keys_set_present {V} k (v : V) m :
  is_Some (Map_get k m) → Map_keys (Map_set k v m) = Map_keys m.
Proof. intros Hk. rewrite Map_keys_set. by rewrite (proj2 (Map_has_true k m)). Qed.

Lemma updateItem_Returns fuel u s s' :
  updateItem fuel u s = Returns tt s' →
  ∃ e, getItem s (item_id u) = Some e ∧
    items s' = Map_set (item_id u) u (items s) ∧
    (∀ q, getChildren s' q =
       if decide (item_parent e = item_parent u) then getChildren s q
       else if decide (item_parent u = Some q) then getChildren s q ++ [u]
       else if decide (item_parent e = Some q)
            then remove_child (item_id u) (getChildren s q)
       else getChildren s q) ∧
    (∀ p, item_parent u = Some p →
       is_Some (getItem s p) ∧
       ∃ D, getAllChildren fuel s (item_id u) = Some D ∧
            p ≠ item_id u ∧ p ∉ ids D).
Proof.
  rewrite updateItem_unfold.
  destruct (getItem s (item_id u)) as [e|] eqn:He; [|done]. cbn zeta.
  intros Hret. exists e. split; [done|].
  assert (∀ t, Returns tt (set_items (Map_set (item_id u) u) t) = Returns tt s' →
          items s' = Map_set (item_id u) u (items t) ∧
          ∀ q, getChildren s' q = getChildren t q) as Hfin.
  { by intros t [= <-]. }
  assert (∀ q,
    getChildren
      (if bool_decide (item_parent e = item_parent u) then s
       else match item_parent u with
            | Some p =>
                set_childrenMap (children_push p u)
                  match item_parent e with
                  | Some old =>
                      set_childrenMap (children_splice old (item_id u)) s
                  | None => s
                  end
            | None =>
                match item_parent e with
                | Some old =>
                    set_childrenMap (children_splice old (item_id u)) s
                | None => s
                end
            end) q
    = if decide (item_parent e = item_parent u) then getChildren s q
      else if decide (item_parent u = Some q) then getChildren s q ++ [u]
      else if decide (item_parent e = Some q)
           then remove_child (item_id u) (getChildren s q)
      else getChildren s q) as Hch.
  { intros q. case_bool_decide as Hpar.
    { by rewrite decide_True. }
    rewrite (decide_False (P := item_parent e = item_parent u)) by done.
    destruct (item_parent u) as [p|], (item_parent e) as [old|];
      rewrite ?getChildren_push, ?getChildren_splice;
      repeat case_decide; simplify_eq; done. }
  assert (items
      (if bool_decide (item_parent e = item_parent u) then s
       else match item_parent u with
            | Some p =>
                set_childrenMap (children_push p u)
                  match item_parent e with
                  | Some old =>
                      set_childrenMap (children_splice old (item_id u)) s
                  | None => s
                  end
            | None =>
                match item_parent e with
                | Some old =>
                    set_childrenMap (children_splice old (item_id u)) s
                | None => s
                end
            end) = items s) as Hit.
  { case_bool_decide; [done|].
    by destruct (item_parent u), (item_parent e). }
  destruct (item_parent u) as [p|] eqn:Hp.
  - destruct (Map_has p (items s)) eqn:Hp'; [|done].
    apply Map_has_true in Hp'.
    destruct (wouldCreateCircularReference _ _ _ _) as [[]|] eqn:Hw; try done.
    apply Hfin in Hret as [Hitems Hchildren]. split_and!.
    + by rewrite Hitems, Hit.
    + intros q. by rewrite Hchildren, Hch.
    + intros p' [= <-]. split; [done|].
      unfold wouldCreateCircularReference in Hw.
      destruct (decide (item_id u = p)) as [Heq|Hne]; [done|].
      destruct (getAllChildren fuel s (item_id u)) as [D|]; [|done].
      exists D. split_and!; [done | congruence |].
      simpl in Hw. injection Hw as Hw. rewrite some_child_id in Hw.
      by apply bool_decide_eq_false in Hw.
  - apply Hfin in Hret as [Hitems Hchildren]. split_and!.
    + by rewrite Hitems, Hit.
    + intros q. by rewrite Hchildren, Hch.
    + done.
Qed.

Lemma updateItem_validated fuel u s e :
  getItem s (item_id u) = Some e →
  (∀ p, item_parent u = Some p →
     is_Some (getItem s p) ∧
     ∃ D, getAllChildren fuel s (item_id u) = Some D ∧
          p ≠ item_id u ∧ p ∉ ids D) →
  ∃ s', updateItem fuel u s = Returns tt s'.
Proof.
  intros He Hvalid. rewrite updateItem_unfold, He. cbn zeta.
  destruct (item_parent u) as [p|]; [|by eexists].
  destruct (Hvalid p eq_refl) as (Hp & D & HD & Hne & Hni).
  rewrite (proj2 (Map_has_true _ _) Hp).
  rewrite (wouldCreateCircularReference_Some _ _ _ _ D HD).
  rewrite bool_decide_eq_false_2 by tauto. by eexists.
Qed.

(** C8 — an [updateItem] that passes validation replaces the stored record
    by the updated item as a whole, in place (the order of [getAll] is
    kept).  If the parent is unchanged, no child list changes.  If it
    changed, the first entry for the identifier is dropped from the old
    parent's child list, the updated item is put last in the new parent's
    child list, the other entries of both lists keep their order, and all
    other child lists are as before.  Validation passes exactly when the
    identifier is stored and the new parent is null, or stored and neither
    the identifier itself nor one of its [getAllChildren].  On the fixture,
    moving [3] under [A] leaves [1] with the single child [A] and [A] with
    its three former children in order followed by [3]. *)
Theorem updateItem_success :
  (∀ fuel u s s',
     updateItem fuel u s = Returns tt s' →
     ∃ e, getItem s (item_id u) = Some e ∧
       getItem s' (item_id u) = Some u ∧
       (∀ q, q ≠ item_id u → getItem s' q = getItem s q) ∧
       Map_keys (items s') = Map_keys (items s) ∧
       (∀ q, getChildren s' q =
          if decide (item_parent e = item_parent u) then getChildren s q
          else if decide (item_parent u = Some q) then getChildren s q ++ [u]
          else if decide (item_parent e = Some q)
               then remove_child (item_id u) (getChildren s q)
          else getChildren s q)) ∧
  (∀ fuel u s,
     (∃ s', updateItem fuel u s = Returns tt s') ↔
     is_Some (getItem s (item_id u)) ∧
     ∀ p, item_parent u = Some p →
          is_Some (getItem s p) ∧
          ∃ D, getAllChildren fuel s (item_id u) = Some D ∧
               p ≠ item_id u ∧ p ∉ ids D) ∧
  (let moved := mkItem (IdNum 3) (Some A) "Айтем 3 перемещен" [] in
   ∃ s', updateItem 0 moved fixture = Returns tt s' ∧
         getItem s' (IdNum 3) = Some moved ∧
         ids (getChildren s' (IdNum 1)) = [A] ∧
         length (getChildren s' (IdNum 1)) = 1 ∧
         getChildren s' A = getChildren fixture A ++ [moved] ∧
         length (getChildren s' A) = 4).
Proof.
  split_and!.
  - intros fuel u s s' (e & He & Hitems & Hch & _)%updateItem_Returns.
    exists e. split_and!; [done | | | | done].
    + unfold getItem. rewrite Hitems, Map_get_set. by rewrite decide_True.
    + intros q Hq. unfold getItem. rewrite Hitems, Map_get_set.
      by rewrite decide_False.
    + rewrite Hitems. apply Map_keys_set_present. by eexists.
  - intros fuel u s. split.
    + intros [s' (e & He & _ & _ & Hvalid)%updateItem_Returns].
      split; [by eexists | done].
    + intros [[e He] Hvalid]. by apply updateItem_validated with e.
  - intros moved. eexists. split; [vm_compute; reflexivity|].
    by vm_compute.
Qed.

(** ** Construction from a list that repeats an identifier *)

Lemma nextLevel_contains s c r :
  c ∈ r →
  ∃ before after,
    nextLevel s r = before ++ getChildren s (item_id c) ++ after.
Proof.
  intros (r1 & r2 & ->)%list_elem_of_split.
  exists (nextLevel s r1), (nextLevel s r2).
  by rewrite nextLevel_app, nextLevel_cons.
Qed.

(** C10, counterexample — with [2] and [3] both entered twice, the
    traversal from [1] emits [3] four times, not once per occurrence. *)
Lemma repeated_ancestor_counts :
  length (filter (λ it, item_id it = IdNum 3) repeated_input) = 2 ∧
  ∃ r, getAllChildren 6 (new_TreeStore repeated_input) (IdNum 1) = Some r ∧
       length (filter (λ c, item_id c = IdNum 3) r) = 4.
Proof. split; [done|]. eexists. split; [vm_compute; reflexivity | done]. Qed.

(** C10, amended — a store built from any list keeps, under each
    identifier, the last entry of the list that carries it, and [getAll]
    reports each identifier of the list once; the child list of [p] is the
    sub-list of all entries whose parent is [p], in input order, one per
    occurrence.  Whenever [getAllChildren a] returns, its result is the
    child list of [a] followed by the child lists of the emitted nodes, so
    for [p] equal to [a] or emitted it holds an identifier at least once
    per occurrence under [p] (and more often when [p] is itself emitted
    more than once). *)
Theorem construction_with_repeated_ids l :
  (∀ x, getItem (new_TreeStore l) x = last (filter (λ it, item_id it = x) l)) ∧
  NoDup (ids (getAll (new_TreeStore l))) ∧
  (∀ x, x ∈ ids (getAll (new_TreeStore l)) ↔ x ∈ ids l) ∧
  (∀ p, getChildren (new_TreeStore l) p
        = filter (λ it, item_parent it = Some p) l) ∧
  (∀ fuel a r,
     getAllChildren fuel (new_TreeStore l) a = Some r →
     r = getChildren (new_TreeStore l) a ++ nextLevel (new_TreeStore l) r ∧
     ∀ p x, p = a ∨ p ∈ ids r →
       length (filter (λ it, item_id it = x ∧ item_parent it = Some p) l)
       ≤ length (filter (λ c, item_id c = x) r)).
Proof.
  pose proof (new_TreeStore_unique l) as Hu.
  split_and!.
  - apply new_TreeStore_getItem.
  - rewrite unique_ids_getAll by done. apply Hu.
  - intros x. rewrite unique_ids_getAll by done.
    destruct (decide (x ∈ Map_keys (items (new_TreeStore l)))) as [Hin|Hni].
    + split; [intros _|done].
      destruct (getItem (new_TreeStore l) x) as [it|] eqn:Hx.
      * rewrite new_TreeStore_getItem in Hx.
        apply last_Some_elem_of, list_elem_of_filter in Hx as [<- Hit].
        by apply list_elem_of_fmap_2.
      * by apply Map_get_None_key in Hx.
    + split; [done|]. intros (it & -> & Hit)%list_elem_of_fmap.
      apply Map_get_None_key in Hni. fold (getItem (new_TreeStore l) (item_id it)) in Hni.
      rewrite new_TreeStore_getItem in Hni. apply last_None in Hni.
      assert (it ∈ filter (λ it0, item_id it0 = item_id it) l) as Hf
        by by apply list_elem_of_filter.
      rewrite Hni in Hf. by apply elem_of_nil in Hf.
  - apply new_TreeStore_getChildren.
  - intros fuel a r Hr.
    pose proof (getAllChildren_fixpoint _ _ _ _ Hr) as Hfix.
    split; [done|]. intros p x Hp.
    assert (filter (λ it, item_id it = x ∧ item_parent it = Some p) l
            = filter (λ c, item_id c = x) (getChildren (new_TreeStore l) p)) as ->.
    { by rewrite new_TreeStore_getChildren, list_filter_filter. }
    destruct Hp as [->|(c & -> & Hc)%list_elem_of_fmap].
    + rewrite <- Hfix at 1. rewrite filter_app, length_app. lia.
    + destruct (nextLevel_contains (new_TreeStore l) c r Hc)
        as (before & after & Hnext).
      rewrite <- Hfix at 1. rewrite Hnext, !filter_app, !length_app. lia.
Qed.

(** ** Re-parenting one node of an acyclic relation *)

Section Relink.
Context (R R' : relation Id) (k : Id).
Hypothesis Hold : ∀ x y, R' x y → x = k ∨ R x y.
Hypothesis Hnew : ∀ y, R' k y → ¬ rtc R y k.
Hypothesis Hacyclic : ∀ x, ¬ tc R x x.

Lemma relink_rtc x y : rtc R' x y → rtc R x y ∨ rtc R x k.
Proof using Hold.
  induction 1 as [x | x x1 y Hstep _ IH]; [by left|].
  destruct (Hold _ _ Hstep) as [->|Hxx1]; [by right|].
  destruct IH as [IH|IH]; [left|right]; by eapply rtc_l.
Qed.

Lemma relink_tc x y :
  tc R' x y → tc R x y ∨ (rtc R x k ∧ ∃ np, R' k np ∧ rtc R' np y).
Proof using Hold.
  induction 1 as [x y Hstep | x x1 y Hstep Hrest IH].
  - destruct (Hold _ _ Hstep) as [->|Hxy]; [right | by left; apply tc_once].
    split; [done|]. by exists y.
  - destruct (Hold _ _ Hstep) as [->|Hxx1].
    + right. split; [done|]. exists x1. split; [done | by apply tc_rtc].
    + destruct IH as [IH | (Hk & np & Hnp & Hrtc)].
      * left. by eapply tc_l.
      * right. split; [by eapply rtc_l|]. by exists np.
Qed.

Lemma relink_acyclic x : ¬ tc R' x x.
Proof using Hold Hnew Hacyclic.
  intros [Hx | (Hk & np & Hnp & Hrtc)]%relink_tc; [by apply (Hacyclic x)|].
  apply (Hnew np Hnp).
  destruct (relink_rtc _ _ Hrtc) as [H|H]; [by etrans | done].
Qed.
End Relink.

Lemma tc_last {A} (R : relation A) x z : tc R x z → ∃ y, R y z.
Proof. induction 1; eauto. Qed.

Lemma tc_first_functional {A} (R : relation A) x y z :
  (∀ a b c, R a b → R a c → b = c) →
  tc R x z → R x y → y = z ∨ tc R y z.
Proof.
  intros Hfun Hxz Hxy. destruct Hxz as [x z Hxz | x y' z Hxy' Hy'z].
  - left. by eapply Hfun.
  - right. by rewrite (Hfun _ _ _ Hxy Hxy').
Qed.

Lemma tc_mono {A} (R1 R2 : relation A) x y :
  (∀ a b, R1 a b → R2 a b) → tc R1 x y → tc R2 x y.
Proof.
  intros Hsub. induction 1; [apply tc_once | eapply tc_l]; eauto.
Qed.

(** ** Storing a record under a validated parent keeps the invariants *)

Section RelinkStore.
Variables (s s' : TreeStore) (u : TreeStoreItem) (old : option Id).
Hypothesis HInv : Inv s.
Hypothesis Hitems : items s' = Map_set (item_id u) u (items s).
Hypothesis Hold : ∀ q, parent_of s (item_id u) q ↔ old = Some q.
Hypothesis Hchildren : ∀ q,
  getChildren s' q =
  if decide (old = item_parent u) then getChildren s q
  else if decide (item_parent u = Some q) then getChildren s q ++ [u]
  else if decide (old = Some q)
       then remove_child (item_id u) (getChildren s q)
  else getChildren s q.
Hypothesis Hvalid : ∀ p,
  item_parent u = Some p →
  is_Some (getItem s p) ∧ ¬ rtc (parent_of s) p (item_id u).

Lemma relinked_getItem q :
  getItem s' q = if decide (q = item_id u) then Some u else getItem s q.
Proof using Hitems. unfold getItem. by rewrite Hitems, Map_get_set. Qed.

Lemma relinked_parent_of x y :
  parent_of s' x y ↔
  (x = item_id u ∧ item_parent u = Some y) ∨
  (x ≠ item_id u ∧ parent_of s x y).
Proof using Hitems.
  clear HInv Hold Hchildren Hvalid.
  unfold parent_of. setoid_rewrite relinked_getItem.
  destruct (decide (x = item_id u)) as [->|Hne]; naive_solver.
Qed.

Lemma relinked_unique : unique_ids s'.
Proof using HInv Hitems.
  destruct HInv as ([Hnd Hid] & _). split.
  - rewrite Hitems. by apply Map_keys_set_NoDup.
  - intros q it. rewrite relinked_getItem.
    destruct (decide (q = item_id u)) as [->|Hne]; [by intros [= <-] | apply Hid].
Qed.

Lemma relinked_parents_exist : parents_exist s'.
Proof using HInv Hitems Hvalid.
  destruct HInv as (_ & Hpe & _).
  assert (∀ y, is_Some (getItem s y) → is_Some (getItem s' y)) as Hkeep.
  { intros y Hy. rewrite relinked_getItem.
    by destruct (decide (y = item_id u)). }
  intros x y [[-> Hp] | [_ Hxy]]%relinked_parent_of; apply Hkeep.
  - by apply Hvalid.
  - by eapply Hpe.
Qed.

Lemma relinked_acyclic : acyclic s'.
Proof using HInv Hitems Hvalid.
  destruct HInv as (_ & _ & Hac & _).
  intros x. apply relink_acyclic with (R := parent_of s) (k := item_id u).
  - intros a b [[-> _] | [_ Hab]]%relinked_parent_of; auto.
  - intros y [[_ Hp] | [Hne _]]%relinked_parent_of; [|done].
    by apply Hvalid.
  - exact Hac.
Qed.

Lemma relinked_children_index : children_index s'.
Proof using HInv Hitems Hold Hchildren.
  clear Hvalid. destruct HInv as (_ & _ & _ & Hci).
  intros q. destruct (Hci q) as [Hnd Hin]. rewrite Hchildren.
  setoid_rewrite relinked_parent_of.
  destruct (decide (old = item_parent u)) as [Hsame|Hdiff].
  { split; [done|]. intros x. rewrite Hin.
    destruct (decide (x = item_id u)) as [->|Hne]; [|naive_solver].
    rewrite Hold, Hsame. naive_solver. }
  destruct (decide (item_parent u = Some q)) as [Hq|Hq].
  { assert (item_id u ∉ ids (getChildren s q)) as Hfresh.
    { rewrite Hin, Hold. congruence. }
    rewrite fmap_app. split.
    - apply NoDup_app. split_and!; [done | | apply NoDup_singleton].
      intros x Hx ->%list_elem_of_singleton. done.
    - intros x. rewrite elem_of_app, Hin. cbn [fmap list_fmap].
      rewrite list_elem_of_singleton.
      destruct (decide (x = item_id u)) as [->|Hne]; naive_solver. }
  destruct (decide (old = Some q)) as [Hq'|Hq'].
  { split; [by apply remove_child_NoDup|].
    intros x. rewrite remove_child_ids, Hin by done. naive_solver. }
  split; [done|]. intros x. rewrite Hin.
  destruct (decide (x = item_id u)) as [->|Hne]; [|naive_solver].
  rewrite Hold. naive_solver.
Qed.

Lemma relinked_Inv : Inv s'.
Proof using HInv Hitems Hold Hchildren Hvalid.
  split_and!;
    [apply relinked_unique | apply relinked_parents_exist
     | apply relinked_acyclic | apply relinked_children_index].
Qed.
End RelinkStore.

(** ** Every successful mutation keeps the invariants *)

Lemma addItem_Returns fuel item s s' :
  addItem fuel item s = Returns tt s' →
  getItem s (item_id item) = None ∧
  items s' = Map_set (item_id item) item (items s) ∧
  (∀ q, getChildren s' q =
     if decide (item_parent item = Some q) then getChildren s q ++ [item]
     else getChildren s q) ∧
  (∀ p, item_parent item = Some p → is_Some (getItem s p)).
Proof.
  rewrite addItem_unfold, Map_has_getItem.
  case_bool_decide as Hi; [done|]. apply eq_None_not_Some in Hi.
  destruct (item_parent item) as [p|] eqn:Hp.
  - destruct (Map_has p (items s)) eqn:Hp'; [|done].
    apply Map_has_true in Hp'.
    destruct (wouldCreateCircularReference _ _ _ _) as [[]|]; try done.
    intros [= <-]. split_and!; [done | done | | by intros ? [= <-]].
    intros q. rewrite getChildren_push, getChildren_set_items.
    repeat case_decide; simplify_eq; done.
  - intros [= <-]. split_and!; [done | done | | done].
    intros q. by rewrite decide_False.
Qed.

Lemma addItem_Inv fuel item s s' :
  Inv s → addItem fuel item s = Returns tt s' → Inv s'.
Proof.
  intros HInv (Hfresh & Hitems & Hch & Hpar)%addItem_Returns.
  apply relinked_Inv with (s := s) (u := item) (old := None); try done.
  - intros q. split; [|done]. intros (it & Hit & _). congruence.
  - intros q. rewrite Hch.
    destruct (item_parent item) as [p|];
      repeat case_decide; simplify_eq; done.
  - intros p Hp. split; [by apply Hpar|].
    destruct HInv as (_ & Hpe & _).
    intros [->|Htc]%rtc_tc.
    + apply Hpar in Hp as [? ?]. congruence.
    + apply tc_last in Htc as [y Hy]. apply Hpe in Hy as [? ?]. congruence.
Qed.

Lemma updateItem_Inv fuel u s s' :
  Inv s → updateItem fuel u s = Returns tt s' → Inv s'.
Proof.
  intros HInv (e & He & Hitems & Hch & Hvalid)%updateItem_Returns.
  apply relinked_Inv with (s := s) (u := u) (old := item_parent e); try done.
  - intros q. split.
    + intros (it & Hit & Hq). congruence.
    + intros Hq. by exists e.
  - intros p Hp. destruct (Hvalid p Hp) as (Hstored & D & HD & Hne & Hni).
    split; [done|]. intros [->|Htc]%rtc_tc; [done|].
    apply Hni. eapply getAllChildren_complete; [apply HInv | exact HD | exact Htc].
Qed.

Lemma removeItem_Inv fuel i s s' :
  Inv s → removeItem fuel i s = Returns tt s' → Inv s'.
Proof.
  intros HInv Hret. pose proof HInv as ([Hnd Hid] & Hpe & Hac & Hci).
  destruct (getItem s i) as [item|] eqn:Hi.
  2:{ rewrite removeItem_unfold, Hi in Hret. by injection Hret as <-. }
  destruct (getAllChildren fuel s i) as [D|] eqn:HD.
  2:{ by rewrite removeItem_unfold, Hi, HD in Hret. }
  destruct (removeItem_Returns fuel i s item D Hi HD)
    as (s0 & Hs0 & Hitems & Hget & Hch).
  rewrite Hs0 in Hret. injection Hret as <-.
  destruct (getAllChildren_descendants s Hac Hci fuel i D HD) as [HndD Hdesc].
  assert (∀ x q, parent_of s x q → q ∈ i :: ids D → x ∈ i :: ids D) as Hclosed.
  { intros x q Hxq [->|Hq]%elem_of_cons; right; apply Hdesc.
    - by apply tc_once.
    - eapply tc_l; [exact Hxq|]. by apply Hdesc. }
  assert (∀ x q, parent_of s x q → x ∈ ids D → q ∈ i :: ids D) as Hup.
  { intros x q Hxq Hx%Hdesc.
    destruct (tc_first_functional _ x q i (parent_of_functional s) Hx Hxq)
      as [->|Hq]; [left | right; by apply Hdesc]. }
  assert (∀ x q, parent_of s0 x q ↔ (x ∉ i :: ids D) ∧ parent_of s x q) as Hpo.
  { intros x q. unfold parent_of. setoid_rewrite Hget.
    destruct (decide (x ∈ i :: ids D)); naive_solver. }
  split_and!.
  - split.
    + rewrite Hitems. unfold Map_keys. eapply sublist_NoDup; [exact Hnd|].
      apply fmap_sublist, sublist_filter.
    + intros q it. rewrite Hget. case_decide; [done | apply Hid].
  - intros x y [Hx Hxy]%Hpo. rewrite Hget.
    rewrite decide_False; [by eapply Hpe|].
    intros Hy. apply Hx. by eapply Hclosed.
  - intros x Hx. apply (Hac x). eapply tc_mono; [|exact Hx].
    intros a b Hab. by apply Hpo in Hab as [_ ?].
  - intros q. rewrite Hch. setoid_rewrite Hpo.
    destruct (Hci q) as [Hndq Hq].
    destruct (decide (q ∈ i :: ids D)) as [Hin|Hout].
    { split; [constructor|]. intros x. split; [by intros ?%elem_of_nil|].
      intros [Hx Hxq]. destruct Hx. by eapply Hclosed. }
    destruct (decide (item_parent item = Some q)) as [Hpq|Hpq].
    + split; [by apply remove_child_NoDup|].
      intros x. rewrite remove_child_ids, Hq by done.
      split.
      * intros [Hxq Hne]. split; [|done].
        intros [->|Hx]%elem_of_cons; [done|].
        apply Hout. by eapply Hup.
      * intros [Hx Hxq]. split; [done|]. intros ->. apply Hx. left.
    + split; [done|]. intros x. rewrite Hq. split; [|tauto].
      intros Hxq. split; [|done].
      intros [->|Hx]%elem_of_cons.
      * apply Hpq. destruct Hxq as (it & Hit & Hp). congruence.
      * apply Hout. by eapply Hup.
Qed.

Lemma succeeds_Inv s c s' : Inv s → succeeds s c s' → Inv s'.
Proof.
  intros HInv [fuel Hexec]. destruct c; simpl in Hexec;
    eauto using addItem_Inv, updateItem_Inv, removeItem_Inv.
Qed.

Lemma succeed_all_Inv s cs s' : Inv s → succeed_all s cs s' → Inv s'.
Proof.
  intros HInv Hall. induction Hall; eauto using succeeds_Inv.
Qed.

(** ** The fixture satisfies the invariants *)

Lemma run_all_succeed_all fuel cs s s' :
  run_all fuel cs s = Returns tt s' → succeed_all s cs s'.
Proof.
  revert s. induction cs as [|c cs IH]; intros s; simpl.
  - intros [= <-]. constructor.
  - unfold mbind, M_bind.
    destruct (exec fuel c s) as [[] s1| |] eqn:Hc; try done.
    intros Hrest. econstructor; [by exists fuel | by apply IH].
Qed.

Lemma Inv_empty : Inv (new_TreeStore []).
Proof.
  assert (∀ x y, ¬ parent_of (new_TreeStore []) x y) as Hno.
  { by intros x y (it & Hit & _). }
  split_and!.
  - split; [constructor | done].
  - intros x y Hxy. by apply Hno in Hxy.
  - intros x [y Hy]%tc_last. by apply Hno in Hy.
  - intros p. split; [constructor|].
    intros x. split; [by intros ?%elem_of_nil | by intros ?%Hno].
Qed.

Lemma fixture_built :
  succeed_all (new_TreeStore []) (AddItem <$> mockItems) fixture.
Proof. apply run_all_succeed_all with 0. vm_compute. reflexivity. Qed.

Lemma Inv_fixture : Inv fixture.
Proof. eapply succeed_all_Inv; [apply Inv_empty | apply fixture_built]. Qed.

Lemma last_filter_unique (l : list TreeStoreItem) c :
  NoDup (ids l) → c ∈ l →
  last (filter (λ it, item_id it = item_id c) l) = Some c.
Proof.
  induction l as [|a l IH]; [by intros _ ?%elem_of_nil|].
  rewrite fmap_cons, NoDup_cons. intros [Ha Hnd] [->|Hc]%elem_of_cons.
  - rewrite filter_cons_True by done.
    replace (filter (λ it, item_id it = item_id a) l) with (@nil TreeStoreItem);
      [done|].
    symmetry. apply last_None.
    destruct (last (filter (λ it, item_id it = item_id a) l)) as [b|] eqn:Hb;
      [|done].
    apply last_Some_elem_of, list_elem_of_filter in Hb as [Hid Hb].
    destruct Ha. rewrite <- Hid. by apply list_elem_of_fmap_2.
  - rewrite filter_cons_False; [by apply IH|].
    intros Heq. apply Ha. rewrite Heq. by apply list_elem_of_fmap_2.
Qed.

Lemma new_TreeStore_children_records l :
  NoDup (ids l) → children_records (new_TreeStore l).
Proof.
  intros Hnd p c. rewrite new_TreeStore_getChildren, new_TreeStore_getItem.
  intros [_ Hc]%list_elem_of_filter. by apply last_filter_unique.
Qed.

Lemma Inv_records_fixture : Inv_records fixture.
Proof.
  split; [apply Inv_fixture|]. apply new_TreeStore_children_records.
  by vm_compute; repeat constructor; rewrite ?elem_of_cons, ?elem_of_nil;
    intuition discriminate.
Qed.

(** ** [getAllChildren] on a store that satisfies the invariants *)

Lemma generation_distance s i k x :
  children_index s →
  x ∈ ids (Nat.iter k (nextLevel s) (getChildren s i)) ↔
  nsteps (parent_of s) (S k) x i.
Proof.
  intros Hci. revert x. induction k as [|k IH]; intros x.
  - simpl. rewrite (proj2 (Hci i)). split.
    + intros Hx. by apply nsteps_once.
    + by intros Hx%nsteps_once_inv.
  - cbn [Nat.iter]. split.
    + intros (d & -> & (c & Hc & Hd)%elem_of_nextLevel)%list_elem_of_fmap.
      eapply nsteps_l.
      * apply Hci. by apply list_elem_of_fmap_2.
      * apply IH. by apply list_elem_of_fmap_2.
    + intros Hx. inversion Hx as [|? ? y ? Hxy Hy]; subst.
      apply IH in Hy. apply list_elem_of_fmap in Hy as (c & -> & Hc).
      apply Hci in Hxy. apply list_elem_of_fmap in Hxy as (d & -> & Hd).
      apply list_elem_of_fmap_2, elem_of_nextLevel. by exists c.
Qed.

Lemma getAllChildren_from_child_list fuel s i r c :
  getAllChildren fuel s i = Some r → c ∈ r → ∃ p, c ∈ getChildren s p.
Proof.
  intros Hfix%getAllChildren_fixpoint Hc. rewrite <- Hfix in Hc.
  apply elem_of_app in Hc as [Hc | (d & _ & Hd)%elem_of_nextLevel]; eauto.
Qed.

(** C5 — on every store that satisfies the invariants, [getAllChildren]
    returns; the result is the child list of the identifier followed by
    the successive generations of children (generation [k] holding exactly
    the items [k + 1] parent links below the identifier), carries every
    proper descendant exactly once and nothing else, and, the child lists
    holding the stored records, consists of stored records; it is empty
    for a leaf and for an unknown identifier.  On the fixture,
    [getAllChildren 1] is [A, 3, 4, 5, 6, 7, 8]. *)
Theorem getAllChildren_closure :
  (∀ s i, Inv s →
     ∃ fuel r, getAllChildren fuel s i = Some r ∧
       (∃ n, r = levels n s (getChildren s i) ∧
             Nat.iter n (nextLevel s) (getChildren s i) = []) ∧
       (∀ k x, x ∈ ids (Nat.iter k (nextLevel s) (getChildren s i)) ↔
               nsteps (parent_of s) (S k) x i) ∧
       NoDup (ids r) ∧
       (∀ x, x ∈ ids r ↔ ancestor s x i) ∧
       (children_records s →
          NoDup r ∧
          ∀ c, c ∈ r ↔
               getItem s (item_id c) = Some c ∧ ancestor s (item_id c) i) ∧
       ((∀ x, ¬ parent_of s x i) → r = []) ∧
       (getItem s i = None → r = [])) ∧
  (∃ r, getAllChildren 7 fixture (IdNum 1) = Some r ∧
        ids r = [A; IdNum 3; IdNum 4; IdNum 5; IdNum 6; IdNum 7; IdNum 8] ∧
        length r = 7).
Proof.
  split.
  - intros s i (Hu & Hpe & Hac & Hci).
    destruct (getAllChildren_terminates s i Hac (children_index_sound s Hci))
      as (fuel & r & Hr).
    destruct (getAllChildren_descendants s Hac Hci fuel i r Hr) as [Hnd Hdesc].
    assert ((∀ x, ¬ parent_of s x i) → r = []) as Hleaf.
    { intros Hno. destruct r as [|c r]; [done|].
      assert (ancestor s (item_id c) i) as [y Hy]%tc_last
        by (apply Hdesc; left).
      by apply Hno in Hy. }
    exists fuel, r. split_and!; try done.
    + apply (getAllChildren_loop_levels s fuel (getChildren s i) [] r Hr).
    + intros k x. by apply generation_distance.
    + intros Hrec.
      assert (∀ c, c ∈ r → getItem s (item_id c) = Some c) as Hstored.
      { intros c Hc.
        destruct (getAllChildren_from_child_list _ _ _ _ _ Hr Hc) as [p Hp].
        by eapply Hrec. }
      split; [by eapply NoDup_fmap_1|]. intros c. split.
      * intros Hc. split; [by apply Hstored|].
        by apply Hdesc, list_elem_of_fmap_2.
      * intros [Hc (c' & Hid & Hc')%Hdesc%list_elem_of_fmap].
        pose proof (Hstored c' Hc') as Hc''. rewrite <- Hid, Hc in Hc''.
        by injection Hc'' as ->.
    + intros Hi. apply Hleaf. intros x Hx. apply Hpe in Hx as [? ?]. congruence.
  - eexists. split; [vm_compute; reflexivity|]. by vm_compute.
Qed.

(** The theorem at work on the fixture, for the subtree of [A]. *)
Lemma getAllChildren_closure_witness :
  ∃ fuel r, getAllChildren fuel fixture A = Some r ∧
    (∃ n, r = levels n fixture (getChildren fixture A) ∧
          Nat.iter n (nextLevel fixture) (getChildren fixture A) = []) ∧
    (∀ k x, x ∈ ids (Nat.iter k (nextLevel fixture) (getChildren fixture A)) ↔
            nsteps (parent_of fixture) (S k) x A) ∧
    NoDup (ids r) ∧
    (∀ x, x ∈ ids r ↔ ancestor fixture x A) ∧
    (children_records fixture →
       NoDup r ∧
       ∀ c, c ∈ r ↔
            getItem fixture (item_id c) = Some c ∧
            ancestor fixture (item_id c) A) ∧
    ((∀ x, ¬ parent_of fixture x A) → r = []) ∧
    (getItem fixture A = None → r = []).
Proof. exact (proj1 getAllChildren_closure fixture A Inv_fixture). Defined.

(** The theorem at work on the fixture. *)
Lemma traversals_terminate_witness :
  (children_sound fixture → ∃ fuel r, getAllChildren fuel fixture A = Some r) ∧
  (∃ r, getAllParents (S (length (items fixture))) fixture A = Some r).
Proof.
  exact (traversals_terminate fixture A (proj1 (proj2 (proj2 Inv_fixture)))).
Defined.

(** ** Acyclicity is kept, and a circular parent is never accepted *)

Lemma getAllChildren_mono fuel fuel' s i r :
  fuel ≤ fuel' →
  getAllChildren fuel s i = Some r → getAllChildren fuel' s i = Some r.
Proof. apply getAllChildren_loop_mono. Qed.

Lemma ancestor_stored s x y : ancestor s x y → is_Some (getItem s x).
Proof. intros [? ? (it & Hit & _) | ? ? ? (it & Hit & _) _]; by eexists. Qed.

(** C2, counterexample — [addItem] never reports a circular reference on
    the fixture: with the item's own identifier as parent it fails with
    [ParentNotFound] when the identifier is new and with
    [ItemAlreadyExists] when it is stored, and likewise with a descendant
    as parent. *)
Lemma addItem_self_parent_not_circular :
  Inv fixture ∧
  (∀ fuel, addItem fuel (mkItem (IdNum 9) (Some (IdNum 9)) "self" []) fixture
           = Throws (ParentNotFound (IdNum 9)) fixture) ∧
  (∀ fuel, addItem fuel (mkItem (IdNum 1) (Some (IdNum 1)) "self" []) fixture
           = Throws (ItemAlreadyExists (IdNum 1)) fixture) ∧
  (∀ fuel, addItem fuel (mkItem (IdNum 1) (Some (IdNum 7)) "below" []) fixture
           = Throws (ItemAlreadyExists (IdNum 1)) fixture).
Proof.
  split_and!; [apply Inv_fixture | ..]; intros fuel; rewrite addItem_unfold;
    cbn [item_id item_parent].
  - replace (Map_has (IdNum 9) (items fixture)) with false
      by (vm_compute; reflexivity). done.
  - replace (Map_has (IdNum 1) (items fixture)) with true
      by (vm_compute; reflexivity). done.
  - replace (Map_has (IdNum 1) (items fixture)) with true
      by (vm_compute; reflexivity). done.
Qed.

(** C2, amended — starting from a store that satisfies the invariants, every
    sequence of successful [addItem], [updateItem] and [removeItem] calls
    ends in a store that satisfies them, so no item is its own ancestor.
    A call whose non-null parent is the item's own identifier, or a
    current descendant of it, never succeeds: [updateItem] of a stored
    item fails with [CircularReference] (once the traversal has fuel
    enough to finish), and of an unknown one with [ItemNotFound];
    [addItem] fails before the circularity check, with
    [ItemAlreadyExists] or [ParentNotFound]. *)
Theorem mutations_keep_acyclic s :
  Inv s →
  (∀ cs s', succeed_all s cs s' → Inv s' ∧ acyclic s') ∧
  (∀ item p,
     item_parent item = Some p →
     p = item_id item ∨ ancestor s p (item_id item) →
     (∀ fuel s', addItem fuel item s ≠ Returns tt s' ∧
                 updateItem fuel item s ≠ Returns tt s') ∧
     (∀ fuel,
        addItem fuel item s = Throws (ItemAlreadyExists (item_id item)) s ∨
        addItem fuel item s = Throws (ParentNotFound p) s) ∧
     (is_Some (getItem s (item_id item)) →
        ∃ fuel0, ∀ fuel, fuel0 ≤ fuel →
          updateItem fuel item s = Throws CircularReference s) ∧
     (getItem s (item_id item) = None →
        ∀ fuel, updateItem fuel item s
                = Throws (ItemNotFound (item_id item)) s)).
Proof.
  intros HInv. split.
  { intros cs s' Hall. pose proof (succeed_all_Inv _ _ _ HInv Hall) as HInv'.
    split; [done | apply HInv']. }
  destruct HInv as (Hu & Hpe & Hac & Hci).
  intros item p Hp Hcirc.
  assert (∀ fuel,
    addItem fuel item s = Throws (ItemAlreadyExists (item_id item)) s ∨
    addItem fuel item s = Throws (ParentNotFound p) s) as Hadd.
  { intros fuel. rewrite addItem_unfold, Hp, !Map_has_getItem.
    case_bool_decide as Hi; [by left|]. right.
    apply eq_None_not_Some in Hi.
    rewrite bool_decide_eq_false_2; [done|].
    destruct Hcirc as [->|[y Hy]%tc_last]; [by rewrite Hi; intros [? ?]|].
    apply Hpe in Hy as [? ?]. congruence. }
  split_and!.
  - intros fuel s'. split.
    + destruct (Hadd fuel) as [-> | ->]; done.
    + intros (e & He & _ & _ & Hvalid)%updateItem_Returns.
      destruct (Hvalid p Hp) as (_ & D & HD & Hne & Hni).
      destruct Hcirc as [->|Hanc]; [done|].
      apply Hni. by eapply getAllChildren_complete.
  - exact Hadd.
  - intros [e He]. destruct Hcirc as [->|Hanc].
    + exists 0. intros fuel _. rewrite updateItem_unfold, He, Hp. cbn zeta.
      rewrite Map_has_getItem, bool_decide_eq_true_2 by by eexists.
      unfold wouldCreateCircularReference. by rewrite decide_True.
    + destruct (getAllChildren_terminates s (item_id item) Hac
                  (children_index_sound s Hci)) as (fuel0 & D & HD).
      exists fuel0. intros fuel Hfuel.
      apply (getAllChildren_mono _ fuel) in HD; [|done].
      rewrite updateItem_unfold, He, Hp. cbn zeta.
      rewrite Map_has_getItem,
        bool_decide_eq_true_2 by by eapply ancestor_stored.
      rewrite (wouldCreateCircularReference_Some _ _ _ _ D HD).
      rewrite bool_decide_eq_true_2; [done|]. right.
      by eapply getAllChildren_complete.
  - intros Hnone fuel. by rewrite updateItem_unfold, Hnone.
Qed.

(** The theorem at work on the fixture. *)
Lemma mutations_keep_acyclic_witness :
  (∀ cs s', succeed_all fixture cs s' → Inv s' ∧ acyclic s') ∧
  (∀ item p,
     item_parent item = Some p →
     p = item_id item ∨ ancestor fixture p (item_id item) →
     (∀ fuel s', addItem fuel item fixture ≠ Returns tt s' ∧
                 updateItem fuel item fixture ≠ Returns tt s') ∧
     (∀ fuel,
        addItem fuel item fixture
        = Throws (ItemAlreadyExists (item_id item)) fixture ∨
        addItem fuel item fixture = Throws (ParentNotFound p) fixture) ∧
     (is_Some (getItem fixture (item_id item)) →
        ∃ fuel0, ∀ fuel, fuel0 ≤ fuel →
          updateItem fuel item fixture = Throws CircularReference fixture) ∧
     (getItem fixture (item_id item) = None →
        ∀ fuel, updateItem fuel item fixture
                = Throws (ItemNotFound (item_id item)) fixture)).
Proof. exact (mutations_keep_acyclic fixture Inv_fixture). Defined.

(** ** A stale record after [updateItem] *)

(** C1 — on the fixture, which satisfies the invariants with child lists
    holding the stored records, renaming item [3] without moving it
    succeeds and stores the renamed record, but the child list of its
    parent [1] still holds the record as it was: the entry found there is
    no longer the stored record. *)
Theorem updateItem_stale_child_record :
  Inv_records fixture ∧
  ∃ s',
    updateItem 0 (mkItem (IdNum 3) (Some (IdNum 1)) "Item 3 renamed" []) fixture
    = Returns tt s' ∧
    getItem s' (IdNum 3)
    = Some (mkItem (IdNum 3) (Some (IdNum 1)) "Item 3 renamed" []) ∧
    getChildren s' (IdNum 1)
    = [ mkItem A (Some (IdNum 1)) "Айтем 2" [];
        mkItem (IdNum 3) (Some (IdNum 1)) "Айтем 3" [] ] ∧
    ¬ children_records s'.
Proof.
  split; [apply Inv_records_fixture|].
  eexists. split; [vm_compute; reflexivity|].
  split_and!; [by vm_compute | by vm_compute |].
  intros Hrec.
  specialize (Hrec (IdNum 1) (mkItem (IdNum 3) (Some (IdNum 1)) "Айтем 3" [])).
  assert (getItem _ _ = Some _) as Hstale by (apply Hrec; vm_compute; set_solver).
  vm_compute in Hstale. discriminate.
Qed.

(** ** Which mutations keep the child lists' records current *)

Lemma addItem_children_records fuel item s s' :
  children_records s → addItem fuel item s = Returns tt s' →
  children_records s'.
Proof.
  intros Hrec (Hfresh & Hitems & Hch & _)%addItem_Returns p c.
  assert (∀ q, getItem s' q
               = if decide (q = item_id item) then Some item else getItem s q)
    as Hget by (intros q; unfold getItem; by rewrite Hitems, Map_get_set).
  assert (c ∈ getChildren s p → getItem s' (item_id c) = Some c) as Hold.
  { intros Hc%Hrec. rewrite Hget.
    destruct (decide (item_id c = item_id item)) as [Heq|]; [|done].
    rewrite Heq in Hc. congruence. }
  rewrite Hch. destruct (decide (item_parent item = Some p)); [|done].
  intros [Hc | ->%list_elem_of_singleton]%elem_of_app; [by apply Hold|].
  by rewrite Hget, decide_True.
Qed.

Lemma removeItem_children_records fuel i s s' :
  Inv s → children_records s → removeItem fuel i s = Returns tt s' →
  children_records s'.
Proof.
  intros (_ & _ & Hac & Hci) Hrec Hret.
  destruct (getItem s i) as [item|] eqn:Hi.
  2:{ rewrite removeItem_unfold, Hi in Hret. by injection Hret as <-. }
  destruct (getAllChildren fuel s i) as [D|] eqn:HD.
  2:{ by rewrite removeItem_unfold, Hi, HD in Hret. }
  destruct (removeItem_Returns fuel i s item D Hi HD)
    as (s0 & Hs0 & _ & Hget & Hch).
  rewrite Hs0 in Hret. injection Hret as <-.
  destruct (getAllChildren_descendants s Hac Hci fuel i D HD) as [_ Hdesc].
  intros q c. rewrite Hch, Hget.
  destruct (decide (q ∈ i :: ids D)) as [|Hout]; [by intros ?%elem_of_nil|].
  assert (c ∈ getChildren s q → item_id c ≠ i →
          (if decide (item_id c ∈ i :: ids D) then None
           else getItem s (item_id c)) = Some c) as Hkeep.
  { intros Hc Hne. rewrite decide_False; [by eapply Hrec|].
    intros [?|Hx%Hdesc]%elem_of_cons; [done|]. apply Hout.
    assert (parent_of s (item_id c) q) as Hcq
      by by apply Hci, list_elem_of_fmap_2.
    destruct (tc_first_functional _ _ q i (parent_of_functional s) Hx Hcq)
      as [->|Hq]; [left | right; by apply Hdesc]. }
  destruct (decide (item_parent item = Some q)) as [Hpq|Hpq].
  - intros Hc. apply Hkeep.
    + eapply elem_of_sublist; [exact Hc | apply remove_child_sublist].
    + apply (list_elem_of_fmap_2 item_id) in Hc.
      apply remove_child_ids in Hc; [tauto | apply Hci].
  - intros Hc. apply Hkeep; [done|]. intros Heq. apply Hpq.
    assert (parent_of s i q) as (it & Hit & Hp).
    { rewrite <- Heq. by apply Hci, list_elem_of_fmap_2. }
    congruence.
Qed.

(** After a successful [updateItem] the child lists hold the stored
    records unless the item kept a non-null parent and changed otherwise. *)
Lemma updateItem_children_records fuel u s s' e :
  Inv s → children_records s →
  updateItem fuel u s = Returns tt s' →
  getItem s (item_id u) = Some e →
  (children_records s' ↔
   ¬ (item_parent e = item_parent u ∧ item_parent u ≠ None ∧ u ≠ e)).
Proof.
  intros (_ & _ & _ & Hci) Hrec
    (e' & He' & Hitems & Hch & _)%updateItem_Returns He.
  assert (e' = e) as -> by congruence.
  assert (∀ q, getItem s' q
               = if decide (q = item_id u) then Some u else getItem s q)
    as Hget by (intros q; unfold getItem; by rewrite Hitems, Map_get_set).
  assert (∀ p c, c ∈ getChildren s p → item_id c = item_id u →
                 c = e ∧ item_parent e = Some p) as Hentry.
  { intros p c Hc Hid. pose proof (Hrec p c Hc) as Hst.
    rewrite Hid, He in Hst. injection Hst as Hec. subst c. split; [done|].
    assert (parent_of s (item_id e) p) as (it & Hit & Hp)
      by by apply Hci, list_elem_of_fmap_2.
    congruence. }
  split.
  - intros Hrec' (Hsame & Hnn & Hne).
    destruct (item_parent u) as [p|] eqn:Hp; [|done].
    assert (item_id u ∈ ids (getChildren s p)) as (c & Hid & Hc)%list_elem_of_fmap.
    { apply Hci. by exists e. }
    destruct (Hentry p c Hc (eq_sym Hid)) as [-> _].
    specialize (Hrec' p e). rewrite Hch, decide_True in Hrec' by done.
    specialize (Hrec' Hc). rewrite Hget, <- Hid, decide_True in Hrec' by done.
    by injection Hrec' as ->.
  - intros Hok p c. rewrite Hch, Hget.
    assert (c ∈ getChildren s p → item_id c ≠ item_id u →
            (if decide (item_id c = item_id u) then Some u
             else getItem s (item_id c)) = Some c) as Hkeep.
    { intros Hc Hne. rewrite decide_False by done. by eapply Hrec. }
    destruct (decide (item_parent e = item_parent u)) as [Hsame|Hdiff].
    { intros Hc. destruct (decide (item_id c = item_id u)) as [Hid|Hne];
        [|by eapply Hrec].
      destruct (Hentry p c Hc Hid) as [-> Hp].
      f_equal. destruct (decide (u = e)) as [|Hne]; [done|].
      destruct Hok. split_and!; [done | congruence | done]. }
    destruct (decide (item_parent u = Some p)) as [Hp|Hp].
    { intros [Hc | ->%list_elem_of_singleton]%elem_of_app;
        [|by rewrite decide_True].
      apply Hkeep; [done|]. intros Hid.
      destruct (Hentry p c Hc Hid) as [_ Hp']. congruence. }
    destruct (decide (item_parent e = Some p)) as [Hp'|Hp'].
    { intros Hc. apply Hkeep.
      - eapply elem_of_sublist; [exact Hc | apply remove_child_sublist].
      - apply (list_elem_of_fmap_2 item_id) in Hc.
        apply remove_child_ids in Hc; [tauto | apply Hci]. }
    intros Hc. apply Hkeep; [done|]. intros Hid.
    by destruct (Hentry p c Hc Hid) as [_ ?].
Qed.

(** * Further properties of the code *)

(** ** The grid's path is the ancestor chain read from the root *)

Lemma find_row_last l i :
  NoDup (ids l) → find_row l i = last (filter (λ it, item_id it = i) l).
Proof.
  unfold find_row. induction l as [|a l IH]; [done|].
  rewrite fmap_cons, NoDup_cons. intros [Ha Hnd]. cbn [List.find].
  case_bool_decide as Hai.
  - rewrite filter_cons_True by done.
    assert (filter (λ it, item_id it = i) l = []) as ->; [|done].
    apply last_None.
    destruct (last (filter (λ it, item_id it = i) l)) as [b|] eqn:Hb; [|done].
    apply last_Some_elem_of, list_elem_of_filter in Hb as [Hid Hb].
    destruct Ha. rewrite Hai, <- Hid. by apply list_elem_of_fmap_2.
  - rewrite filter_cons_False by done. by apply IH.
Qed.

Lemma getAllParents_loop_acc fuel s cur acc :
  getAllParents_loop fuel s cur acc
  = (λ t, acc ++ t) <$> getAllParents_loop fuel s cur [].
Proof.
  revert cur acc. induction fuel as [|fuel IH]; intros cur acc; simpl;
    destruct (item_parent cur) as [p|]; try destruct (getItem s p) as [par|];
    simpl; rewrite ?app_nil_r; try done.
  rewrite IH, (IH par [par]). destruct (getAllParents_loop fuel s par []); simpl;
    [|done].
  by rewrite <- (assoc_L (++)).
Qed.

Lemma buildPath_getAllParents_loop fuel l cur path :
  NoDup (ids l) →
  buildPath fuel l (item_parent cur) path
  = (λ t, path ++ reverse (item_label <$> t))
      <$> getAllParents_loop fuel (new_TreeStore l) cur [].
Proof.
  intros Hnd. revert cur path.
  induction fuel as [|fuel IH]; intros cur path; simpl;
    destruct (item_parent cur) as [p|]; simpl; rewrite ?app_nil_r; try done;
    rewrite new_TreeStore_getItem, <- find_row_last by done;
    destruct (find_row l p) as [par|]; simpl; rewrite ?app_nil_r; try done.
  rewrite IH, (getAllParents_loop_acc _ _ par [par]).
  destruct (getAllParents_loop fuel (new_TreeStore l) par []) as [t|]; simpl;
    [|done].
  by rewrite reverse_cons, (assoc_L (++)).
Qed.

(** X9 — the path shown for a row is the labels of [getAllParents] of that row,
    read from the root down to the row, whenever the rows carry distinct
    identifiers and the store is built from them; and the two need the
    same number of steps. *)
Theorem getDataPath_getAllParents fuel l data :
  NoDup (ids l) → data ∈ l →
  getDataPath fuel l data
  = (λ r, reverse (item_label <$> r))
      <$> getAllParents fuel (new_TreeStore l) (item_id data).
Proof.
  intros Hnd Hdata. unfold getDataPath, getAllParents.
  rewrite new_TreeStore_getItem, last_filter_unique by done.
  rewrite buildPath_getAllParents_loop by done.
  rewrite (getAllParents_loop_acc _ _ data [data]).
  destruct (getAllParents_loop fuel (new_TreeStore l) data []) as [t|]; simpl;
    [|done].
  by rewrite reverse_cons.
Qed.

(** The theorem at work on the rows of the grid, for row [7]. *)
Lemma getDataPath_getAllParents_witness :
  getDataPath 3 mockItems (mkItem (IdNum 7) (Some (IdNum 4)) "Айтем 7" [])
  = (λ r, reverse (item_label <$> r))
      <$> getAllParents 3 (new_TreeStore mockItems) (IdNum 7).
Proof.
  apply (getDataPath_getAllParents 3 mockItems
           (mkItem (IdNum 7) (Some (IdNum 4)) "Айтем 7" [])).
  - by vm_compute; repeat constructor; rewrite ?elem_of_cons, ?elem_of_nil;
      intuition discriminate.
  - vm_compute. set_solver.
Defined.

(** ** Construction from well-formed input *)

Lemma initialize_items_fold l st :
  foldl (λ st item, set_items (Map_set (item_id item) item) st) st l
  = {| items := foldl (λ m item, Map_set (item_id item) item m) (items st) l;
       childrenMap := childrenMap st |}.
Proof.
  revert st. induction l as [|a l IH]; intros st; [by destruct st|].
  cbn [foldl]. by rewrite IH.
Qed.

Lemma initialize_children_fold l st :
  foldl (λ st item,
           match item_parent item with
           | Some parentId => set_childrenMap (children_push parentId item) st
           | None => st
           end) st l
  = {| items := items st;
       childrenMap :=
         foldl (λ cm item,
                  match item_parent item with
                  | Some parentId => children_push parentId item cm
                  | None => cm
                  end) (childrenMap st) l |}.
Proof.
  revert st. induction l as [|a l IH]; intros st; [by destruct st|].
  cbn [foldl]. rewrite IH. by destruct (item_parent a).
Qed.

Lemma new_TreeStore_snoc l a :
  new_TreeStore (l ++ [a])
  = match item_parent a with
    | Some p =>
        set_childrenMap (children_push p a)
          (set_items (Map_set (item_id a) a) (new_TreeStore l))
    | None => set_items (Map_set (item_id a) a) (new_TreeStore l)
    end.
Proof.
  unfold new_TreeStore, initialize.
  rewrite !initialize_items_fold, !initialize_children_fold. simpl.
  rewrite !foldl_app. simpl. by destruct (item_parent a).
Qed.

Lemma new_TreeStore_fresh l i :
  i ∉ ids l → getItem (new_TreeStore l) i = None.
Proof.
  intros Hi. rewrite new_TreeStore_getItem. apply last_None.
  destruct (filter (λ it, item_id it = i) l) as [|b t] eqn:Hf; [done|].
  assert (b ∈ filter (λ it, item_id it = i) l) as [Hid Hb]%list_elem_of_filter
    by (rewrite Hf; left).
  destruct Hi. rewrite <- Hid. by apply list_elem_of_fmap_2.
Qed.

Lemma new_TreeStore_items l :
  NoDup (ids l) → items (new_TreeStore l) = (λ it, (item_id it, it)) <$> l.
Proof.
  induction l as [|a l IH] using rev_ind; [done|].
  rewrite fmap_app, NoDup_app. intros (Hnd & Hdis & _).
  rewrite new_TreeStore_snoc.
  assert (items (set_items (Map_set (item_id a) a) (new_TreeStore l))
          = ((λ it, (item_id it, it)) <$> l) ++ [(item_id a, a)]) as Hitems.
  { simpl. rewrite Map_set_absent, IH; [done | done |].
    apply new_TreeStore_fresh. intros Hin. apply (Hdis _ Hin). left. }
  rewrite fmap_app. by destruct (item_parent a).
Qed.

(** X1 — a store built from a list with distinct identifiers gives the
    list back: [getAll] is the list itself, in order, [getItem] finds
    each entry under its identifier and nothing under any other. *)
Theorem construction_round_trip l :
  NoDup (ids l) →
  getAll (new_TreeStore l) = l ∧
  (∀ it, it ∈ l → getItem (new_TreeStore l) (item_id it) = Some it) ∧
  (∀ i, i ∉ ids l → getItem (new_TreeStore l) i = None).
Proof.
  intros Hnd. split_and!.
  - unfold getAll, Map_values. rewrite new_TreeStore_items by done.
    rewrite <- list_fmap_compose. by rewrite list_fmap_id.
  - intros it Hit. rewrite new_TreeStore_getItem. by apply last_filter_unique.
  - apply new_TreeStore_fresh.
Qed.

Lemma mockItems_NoDup : NoDup (ids mockItems).
Proof.
  by vm_compute; repeat constructor; rewrite ?elem_of_cons, ?elem_of_nil;
    intuition discriminate.
Qed.

(** The theorem at work on the fixture. *)
Lemma construction_round_trip_witness :
  getAll (new_TreeStore mockItems) = mockItems ∧
  (∀ it, it ∈ mockItems →
         getItem (new_TreeStore mockItems) (item_id it) = Some it) ∧
  (∀ i, i ∉ ids mockItems → getItem (new_TreeStore mockItems) i = None).
Proof. exact (construction_round_trip mockItems mockItems_NoDup). Defined.

Lemma run_all_app fuel cs c s s1 :
  run_all fuel cs s = Returns tt s1 →
  run_all fuel (cs ++ [c]) s = exec fuel c s1.
Proof.
  revert s. induction cs as [|c0 cs IH]; intros s; simpl.
  - intros [= <-]. unfold mbind, M_bind.
    by destruct (exec fuel c s) as [[]| |].
  - unfold mbind, M_bind in *.
    destruct (exec fuel c0 s) as [[] s0| |]; try done. apply IH.
Qed.

Lemma parents_first_prefix l a : parents_first (l ++ [a]) → parents_first l.
Proof.
  intros Hpf n it p Hn Hp.
  pose proof (lookup_lt_Some _ _ _ Hn) as Hlt.
  specialize (Hpf n it p). rewrite lookup_app_l, take_app_le in Hpf by lia.
  by apply Hpf.
Qed.

Lemma parents_first_addItem l a :
  NoDup (ids (l ++ [a])) → parents_first (l ++ [a]) →
  addItem 0 a (new_TreeStore l) = Returns tt (new_TreeStore (l ++ [a])).
Proof.
  rewrite fmap_app, NoDup_app. intros (Hnd & Hdis & _) Hpf.
  assert (item_id a ∉ ids l) as Hfresh.
  { intros Hin. apply (Hdis _ Hin). left. }
  assert (∀ p, item_parent a = Some p → p ∈ ids l) as Hparent.
  { intros p Hp. specialize (Hpf (length l) a p).
    rewrite list_lookup_middle, take_app_length in Hpf by done. by apply Hpf. }
  assert (getChildren (new_TreeStore l) (item_id a) = []) as Hleaf.
  { rewrite new_TreeStore_getChildren.
    destruct (filter _ l) as [|b t] eqn:Hf; [done|].
    assert (b ∈ filter (λ it, item_parent it = Some (item_id a)) l)
      as [Hb (n & Hn)%list_elem_of_lookup]%list_elem_of_filter
      by (rewrite Hf; left).
    destruct Hfresh.
    pose proof (parents_first_prefix _ _ Hpf n b _ Hn Hb) as Hin.
    apply list_elem_of_fmap in Hin as (c & -> & Hc).
    by apply list_elem_of_fmap_2, (subseteq_take n). }
  rewrite addItem_unfold, new_TreeStore_snoc, Map_has_getItem.
  rewrite bool_decide_eq_false_2
    by (rewrite new_TreeStore_fresh by done; by intros [? ?]).
  destruct (item_parent a) as [p|]; [|done].
  assert (is_Some (getItem (new_TreeStore l) p)) as Hp.
  { specialize (Hparent p eq_refl).
    apply list_elem_of_fmap in Hparent as (it & -> & Hit).
    rewrite new_TreeStore_getItem, last_filter_unique by done. by eexists. }
  rewrite Map_has_getItem, bool_decide_eq_true_2 by done.
  unfold wouldCreateCircularReference, getAllChildren.
  rewrite Hleaf, decide_False; [done|].
  intros Heq. apply Hfresh. rewrite Heq. by apply Hparent.
Qed.

Lemma parents_first_run l :
  NoDup (ids l) → parents_first l →
  run_all 0 (AddItem <$> l) (new_TreeStore []) = Returns tt (new_TreeStore l).
Proof.
  induction l as [|a l IH] using rev_ind; intros Hnd Hpf; [done|].
  rewrite fmap_app. cbn [fmap list_fmap].
  rewrite (run_all_app 0 _ _ _ (new_TreeStore l)).
  - by apply parents_first_addItem.
  - apply IH; [|by eapply parents_first_prefix].
    rewrite fmap_app in Hnd. by apply NoDup_app in Hnd as (? & _).
Qed.

Lemma parents_first_Inv l :
  NoDup (ids l) → parents_first l → Inv (new_TreeStore l).
Proof.
  intros Hnd Hpf. eapply succeed_all_Inv; [apply Inv_empty|].
  eapply run_all_succeed_all. by apply parents_first_run.
Qed.

(** X2 — when the input lists distinct identifiers with every parent
    before its children, bulk construction does what adding the items one
    by one does: each [addItem] succeeds, the final store is the
    constructed one, and it satisfies the invariants with child lists
    holding the stored records. *)
Theorem construction_parents_first l :
  NoDup (ids l) → parents_first l →
  run_all 0 (AddItem <$> l) (new_TreeStore []) = Returns tt (new_TreeStore l) ∧
  Inv_records (new_TreeStore l).
Proof.
  intros Hnd Hpf. split; [by apply parents_first_run|].
  split; [by apply parents_first_Inv | by apply new_TreeStore_children_records].
Qed.

Lemma mockItems_parents_first : parents_first mockItems.
Proof.
  intros n it p Hn Hp.
  do 8 (destruct n as [|n]; [injection Hn as <-; simpl in Hp; simplify_eq;
                             vm_compute; set_solver|]).
  done.
Qed.

(** The theorem at work on the fixture. *)
Lemma construction_parents_first_witness :
  run_all 0 (AddItem <$> mockItems) (new_TreeStore [])
  = Returns tt (new_TreeStore mockItems) ∧
  Inv_records (new_TreeStore mockItems).
Proof.
  exact (construction_parents_first mockItems mockItems_NoDup
           mockItems_parents_first).
Defined.

(** ** How [addItem] and [removeItem] compose *)

Lemma remove_child_snoc i l c :
  i ∉ ids l → item_id c = i → remove_child i (l ++ [c]) = l.
Proof.
  induction l as [|a l IH]; intros Hi Hc.
  - simpl. by rewrite decide_True.
  - rewrite fmap_cons, not_elem_of_cons in Hi. destruct Hi as [Hne Hi].
    cbn [app remove_child]. rewrite decide_False by done. by rewrite IH.
Qed.

Lemma filter_keys_absent (m : list (Id * TreeStoreItem)) i v :
  Map_get i m = None →
  filter (λ kv, kv.1 ∉ [i]) (m ++ [(i, v)]) = m.
Proof.
  intros Hi. rewrite filter_app, filter_cons_False, filter_nil, app_nil_r.
  - induction m as [|[k w] m IH]; [done|]. simpl in Hi.
    case_decide as Hk; [done|].
    rewrite filter_cons_True; [by rewrite IH|].
    simpl. rewrite list_elem_of_singleton. congruence.
  - simpl. intros Hn. apply Hn. left.
Qed.

(** X3 — in a store whose child lists hold only stored children of their
    key and whose parents are all stored, removing an item right after
    adding it undoes the addition: the primary index is as before, entry
    for entry, and every child list reads as before. *)
Theorem addItem_removeItem_undo fuel item s s1 :
  children_sound s → parents_exist s →
  addItem fuel item s = Returns tt s1 →
  ∀ fuel', ∃ s2,
    removeItem fuel' (item_id item) s1 = Returns tt s2 ∧
    items s2 = items s ∧
    (∀ q, getChildren s2 q = getChildren s q).
Proof.
  intros Hcs Hpe (Hfresh & Hitems & Hch & Hpar)%addItem_Returns fuel'.
  assert (∀ q, item_id item ∉ ids (getChildren s q)) as Hnot.
  { intros q (c & Hid & Hc)%list_elem_of_fmap.
    apply Hcs in Hc as (it & Hit & _). congruence. }
  assert (getChildren s (item_id item) = []) as Hleaf.
  { destruct (getChildren s (item_id item)) as [|c t] eqn:Hc; [done|].
    assert (parent_of s (item_id c) (item_id item)) as Hp
      by (apply Hcs; rewrite Hc; left).
    apply Hpe in Hp as [? ?]. congruence. }
  assert (getItem s1 (item_id item) = Some item) as Hstored.
  { unfold getItem. by rewrite Hitems, Map_get_set, decide_True. }
  assert (getAllChildren fuel' s1 (item_id item) = Some []) as HD.
  { unfold getAllChildren. rewrite Hch.
    destruct (decide (item_parent item = Some (item_id item))) as [Hp|_].
    - apply Hpar in Hp as [? ?]. congruence.
    - rewrite Hleaf. apply getAllChildren_loop_nil. }
  destruct (removeItem_Returns fuel' _ s1 item [] Hstored HD)
    as (s2 & Hs2 & Hitems2 & _ & Hch2).
  exists s2. split_and!; [done | |].
  - rewrite Hitems2, Hitems, Map_set_absent by done.
    by apply filter_keys_absent.
  - intros q. rewrite Hch2. cbn [fmap list_fmap].
    destruct (decide (q ∈ [item_id item])) as [->%list_elem_of_singleton|Hq];
      [by rewrite Hleaf|].
    rewrite Hch.
    destruct (decide (item_parent item = Some q)) as [Hp|Hp]; [|done].
    by apply remove_child_snoc.
Qed.

(** The theorem at work: add a child [9] of [1] to the fixture, then
    remove it. *)
Lemma addItem_removeItem_undo_witness :
  ∃ s2,
    removeItem 0 (IdNum 9)
      (set_childrenMap
         (children_push (IdNum 1) (mkItem (IdNum 9) (Some (IdNum 1)) "new" []))
         (set_items
            (Map_set (IdNum 9) (mkItem (IdNum 9) (Some (IdNum 1)) "new" []))
            fixture))
    = Returns tt s2 ∧
    items s2 = items fixture ∧
    (∀ q, getChildren s2 q = getChildren fixture q).
Proof.
  refine (addItem_removeItem_undo 0
            (mkItem (IdNum 9) (Some (IdNum 1)) "new" []) fixture _ _ _ _ 0).
  - apply children_index_sound, Inv_fixture.
  - apply Inv_fixture.
  - vm_compute. reflexivity.
Defined.

(** X4 — [removeItem] is idempotent on every store: once a call has
    returned, repeating it returns the same store, whatever the fuel. *)
Theorem removeItem_idempotent fuel i s s' :
  removeItem fuel i s = Returns tt s' →
  ∀ fuel', removeItem fuel' i s' = Returns tt s'.
Proof.
  intros Hret fuel'.
  assert (getItem s' i = None) as Hgone.
  { destruct (getItem s i) as [item|] eqn:Hi.
    - destruct (getAllChildren fuel s i) as [D|] eqn:HD.
      + destruct (removeItem_Returns fuel i s item D Hi HD)
          as (s0 & Hs0 & _ & Hget & _).
        rewrite Hs0 in Hret. injection Hret as <-.
        rewrite Hget, decide_True; [done | left].
      + by rewrite removeItem_unfold, Hi, HD in Hret.
    - rewrite removeItem_unfold, Hi in Hret. by injection Hret as <-. }
  by rewrite removeItem_unfold, Hgone.
Qed.

(** The theorem at work: removing [A] from the fixture twice. *)
Lemma removeItem_idempotent_witness :
  ∃ s', removeItem 5 A fixture = Returns tt s' ∧
        ∀ fuel', removeItem fuel' A s' = Returns tt s'.
Proof.
  eexists. split; [vm_compute; reflexivity|].
  apply (removeItem_idempotent 5 A fixture). vm_compute. reflexivity.
Defined.



(** ** How [updateItem] composes *)

Lemma Map_set_same {V} k (v : V) m : Map_get k m = Some v → Map_set k v m = m.
Proof.
  induction m as [|[k0 v0] m IH]; [done|]. simpl.
  case_decide; [by intros [= ->]; subst | intros Hm; by rewrite IH].
Qed.

Lemma Map_set_set {V} k (v w : V) m :
  Map_set k v (Map_set k w m) = Map_set k v m.
Proof.
  induction m as [|[k0 v0] m IH]; simpl.
  - by rewrite decide_True.
  - case_decide; simpl; [by rewrite decide_True|].
    rewrite decide_False by done. by rewrite IH.
Qed.

Lemma stored_parent_valid s i e p :
  Inv s → getItem s i = Some e → item_parent e = Some p →
  is_Some (getItem s p) ∧ p ≠ i ∧ ¬ ancestor s p i.
Proof.
  intros (_ & Hpe & Hac & _) He Hp.
  assert (parent_of s i p) as Hip by by exists e.
  split_and!.
  - by eapply Hpe.
  - intros ->. apply (Hac i). by apply tc_once.
  - intros Hanc. apply (Hac i). by eapply tc_l.
Qed.

(** X6 — on a store that satisfies the invariants, writing a stored record
    back with [updateItem] passes validation and changes nothing: the
    store returned is the store given. *)
Theorem updateItem_stored_record s i e :
  Inv s → getItem s i = Some e →
  ∃ fuel, updateItem fuel e s = Returns tt s.
Proof.
  intros HInv He. pose proof HInv as ([_ Hid] & _ & Hac & Hci).
  pose proof (Hid i e He) as Hie. subst i.
  assert (set_items (Map_set (item_id e) e) s = s) as Hsame.
  { unfold set_items. rewrite Map_set_same by done. by destruct s. }
  destruct (item_parent e) as [p|] eqn:Hp.
  - destruct (stored_parent_valid s _ e p HInv He Hp) as (Hstored & Hne & Hanc).
    destruct (getAllChildren_terminates s (item_id e) Hac
                (children_index_sound s Hci)) as (fuel & D & HD).
    exists fuel. rewrite updateItem_unfold, He, Hp. cbn zeta.
    rewrite (proj2 (Map_has_true _ _) Hstored).
    rewrite (wouldCreateCircularReference_Some _ _ _ _ D HD).
    rewrite bool_decide_eq_false_2.
    + rewrite bool_decide_eq_true_2 by done. by rewrite Hsame.
    + intros [?|Hin]; [done|]. apply Hanc.
      by eapply getAllChildren_sound.
  - exists 0. rewrite updateItem_unfold, He, Hp. cbn zeta.
    rewrite bool_decide_eq_true_2 by done. by rewrite Hsame.
Qed.

(** The theorem at work on the fixture, for the record stored under [4]. *)
Lemma updateItem_stored_record_witness :
  ∃ fuel,
    updateItem fuel (mkItem (IdNum 4) (Some A) "Айтем 4" []) fixture
    = Returns tt fixture.
Proof.
  apply (updateItem_stored_record fixture (IdNum 4)); [apply Inv_fixture|].
  vm_compute. reflexivity.
Defined.

(** X7 — on a store that satisfies the invariants, moving an item to
    another parent (or to the roots) and then writing the old record back
    restores the primary index entry for entry, and every child list
    except that of the old parent, where the item now comes last: the
    siblings keep their order and the item has lost its place. *)
Theorem updateItem_move_back fuel s i e p u s1 :
  Inv s → getItem s i = Some e → item_parent e = Some p →
  item_id u = i → item_parent u ≠ Some p →
  updateItem fuel u s = Returns tt s1 →
  ∃ fuel' s2,
    updateItem fuel' e s1 = Returns tt s2 ∧
    items s2 = items s ∧
    getChildren s2 p = remove_child i (getChildren s p) ++ [e] ∧
    (∀ q, q ≠ p → getChildren s2 q = getChildren s q).
Proof.
  intros HInv He Hp Hu Hmoved Hret.
  pose proof (updateItem_Inv _ _ _ _ HInv Hret) as HInv1.
  pose proof HInv as ([_ Hid] & _ & Hac & Hci).
  pose proof HInv1 as (_ & _ & Hac1 & Hci1).
  pose proof (Hid i e He) as Hie.
  destruct (stored_parent_valid s i e p HInv He Hp) as (Hstored & Hne & _).
  apply updateItem_Returns in Hret as (e' & He' & Hitems1 & Hch1 & _).
  rewrite Hu, He in He'. injection He' as <-. rewrite Hu in Hitems1, Hch1.
  assert (∀ q, getItem s1 q = if decide (q = i) then Some u else getItem s q)
    as Hget1 by (intros q; unfold getItem; by rewrite Hitems1, Map_get_set).
  destruct (getAllChildren_terminates s1 i Hac1 (children_index_sound s1 Hci1))
    as (fuel' & D & HD).
  assert (¬ ancestor s1 p i) as Hnot.
  { intros Hanc%tc_rtc.
    assert (rtc (parent_of s) p i) as Hrtc.
    { destruct (relink_rtc (parent_of s) (parent_of s1) i) with (x := p) (y := i)
        as [?|?]; try done.
      intros x y (it & Hit & Hxy). rewrite Hget1 in Hit.
      destruct (decide (x = i)) as [|Hx]; [by left | right; by exists it]. }
    apply (Hac i). eapply tc_rtc_r; [|exact Hrtc]. apply tc_once. by exists e. }
  destruct (updateItem_validated fuel' e s1 u) as [s2 Hs2].
  { by rewrite Hie, Hget1, decide_True. }
  { intros p' Hp'. rewrite Hp in Hp'. injection Hp' as <-. split.
    - rewrite Hget1. by destruct (decide (p = i)).
    - exists D. rewrite Hie. split_and!; [done | done |].
      intros Hin. apply Hnot. by eapply getAllChildren_sound. }
  exists fuel', s2. split; [done|].
  apply updateItem_Returns in Hs2 as (u' & Hu' & Hitems2 & Hch2 & _).
  rewrite Hie, Hget1, decide_True in Hu' by done. injection Hu' as <-.
  rewrite Hie in Hitems2, Hch2.
  assert (item_parent u ≠ item_parent e) as Hdiff by congruence.
  assert (item_parent e ≠ item_parent u) as Hdiff' by congruence.
  split_and!.
  - rewrite Hitems2, Hitems1, Map_set_set. by apply Map_set_same.
  - rewrite Hch2, Hch1, Hp. clear Hch1 Hch2.
    repeat case_decide; simplify_eq; done.
  - intros q Hq. rewrite Hch2, Hch1, Hp. clear Hch1 Hch2.
    repeat case_decide; simplify_eq; try done.
    apply remove_child_snoc; [|done].
    intros Hin. apply Hci in Hin as (it & Hit & Hq').
    rewrite He in Hit. injection Hit as <-. congruence.
Qed.

(** The theorem at work: item [3] of the fixture is moved under [A] and
    back under [1]. *)
Lemma updateItem_move_back_witness :
  ∃ fuel' s2,
    updateItem fuel' (mkItem (IdNum 3) (Some (IdNum 1)) "Айтем 3" [])
      (set_items
         (Map_set (IdNum 3) (mkItem (IdNum 3) (Some A) "moved" []))
         (set_childrenMap
            (children_push A (mkItem (IdNum 3) (Some A) "moved" []))
            (set_childrenMap (children_splice (IdNum 1) (IdNum 3)) fixture)))
    = Returns tt s2 ∧
    items s2 = items fixture ∧
    getChildren s2 (IdNum 1)
    = remove_child (IdNum 3) (getChildren fixture (IdNum 1))
      ++ [mkItem (IdNum 3) (Some (IdNum 1)) "Айтем 3" []] ∧
    (∀ q, q ≠ IdNum 1 → getChildren s2 q = getChildren fixture q).
Proof.
  apply (updateItem_move_back 0 fixture (IdNum 3)
           (mkItem (IdNum 3) (Some (IdNum 1)) "Айтем 3" []) (IdNum 1)
           (mkItem (IdNum 3) (Some A) "moved" [])).
  - apply Inv_fixture.
  - vm_compute. reflexivity.
  - reflexivity.
  - reflexivity.
  - discriminate.
  - vm_compute. reflexivity.
Defined.

(** ** Descendants and ancestors are two views of one relation *)




(** ** Ancestor chains across mutations *)

Lemma getAllParents_loop_agree s1 s2 (P : TreeStoreItem → Prop) :
  (∀ c p, P c → item_parent c = Some p →
     getItem s1 p = getItem s2 p ∧ ∀ par, getItem s2 p = Some par → P par) →
  ∀ fuel cur acc,
    P cur → getAllParents_loop fuel s1 cur acc = getAllParents_loop fuel s2 cur acc.
Proof.
  intros Hagree fuel.
  induction fuel as [|fuel IH]; intros cur acc Hcur; simpl;
    destruct (item_parent cur) as [p|] eqn:Hp; try done;
    destruct (Hagree cur p Hcur Hp) as [-> Hnext];
    destruct (getItem s2 p) as [par|]; try done.
  apply IH. by apply Hnext.
Qed.

(** X10 — on a store whose parents are all stored, a successful [addItem]
    puts the new item in front of the ancestor chain of its parent:
    [getAllParents] of the new identifier is the item followed by what
    [getAllParents] of the parent was before, and the item alone when it
    is a root; it takes one step more. *)
Theorem addItem_getAllParents fuel item s s1 :
  parents_exist s →
  addItem fuel item s = Returns tt s1 →
  ∀ fuel',
    getAllParents (S fuel') s1 (item_id item)
    = match item_parent item with
      | Some p => (λ r, item :: r) <$> getAllParents fuel' s p
      | None => Some [item]
      end.
Proof.
  intros Hpe (Hfresh & Hitems & _ & Hpar)%addItem_Returns fuel'.
  assert (∀ q, getItem s1 q
               = if decide (q = item_id item) then Some item else getItem s q)
    as Hget by (intros q; unfold getItem; by rewrite Hitems, Map_get_set).
  assert (∀ q, is_Some (getItem s q) → getItem s1 q = getItem s q) as Hkeep.
  { intros q [v Hq]. rewrite Hget.
    destruct (decide (q = item_id item)) as [->|]; [congruence | done]. }
  unfold getAllParents. rewrite Hget, decide_True by done.
  cbn [getAllParents_loop].
  destruct (item_parent item) as [p|] eqn:Hp; [|done].
  destruct (Hpar p eq_refl) as [par Hpar'].
  rewrite Hkeep, Hpar' by by eexists.
  rewrite (getAllParents_loop_agree s1 s (λ c, ∃ k, getItem s k = Some c)).
  - rewrite (getAllParents_loop_acc _ _ par [item; par]),
      (getAllParents_loop_acc _ _ par [par]).
    by destruct (getAllParents_loop fuel' s par []).
  - intros c q [k Hk] Hq.
    assert (is_Some (getItem s q)) as Hsq by (apply (Hpe k q); by exists c).
    split; [by apply Hkeep | eauto].
  - by exists p.
Qed.

(** The theorem at work: a new child [9] of [7] in the fixture. *)
Lemma addItem_getAllParents_witness :
  getAllParents 4
    (set_childrenMap
       (children_push (IdNum 7) (mkItem (IdNum 9) (Some (IdNum 7)) "new" []))
       (set_items
          (Map_set (IdNum 9) (mkItem (IdNum 9) (Some (IdNum 7)) "new" []))
          fixture))
    (IdNum 9)
  = (λ r, mkItem (IdNum 9) (Some (IdNum 7)) "new" [] :: r)
      <$> getAllParents 3 fixture (IdNum 7).
Proof.
  refine (addItem_getAllParents 0
            (mkItem (IdNum 9) (Some (IdNum 7)) "new" []) fixture _ _ _ 3).
  - apply Inv_fixture.
  - vm_compute. reflexivity.
Defined.

(** X11 — on a store that satisfies the invariants, [removeItem] leaves
    the ancestor chain of every item it keeps as it was: for every
    identifier still stored, [getAllParents] returns what it returned
    before, with the same fuel. *)
Theorem removeItem_keeps_chains fuel i s s' x :
  Inv s → removeItem fuel i s = Returns tt s' →
  is_Some (getItem s' x) →
  ∀ fuel', getAllParents fuel' s' x = getAllParents fuel' s x.
Proof.
  intros HInv Hret [it Hx] fuel'. pose proof HInv as (_ & _ & Hac & Hci).
  destruct (getItem s i) as [item|] eqn:Hi.
  2:{ rewrite removeItem_unfold, Hi in Hret. by injection Hret as <-. }
  destruct (getAllChildren fuel s i) as [D|] eqn:HD.
  2:{ by rewrite removeItem_unfold, Hi, HD in Hret. }
  destruct (removeItem_Returns fuel i s item D Hi HD)
    as (s0 & Hs0 & _ & Hget & _).
  rewrite Hs0 in Hret. injection Hret as <-.
  destruct (getAllChildren_descendants s Hac Hci fuel i D HD) as [_ Hdesc].
  assert (∀ k q, parent_of s k q → q ∈ i :: ids D → k ∈ i :: ids D) as Hclosed.
  { intros k q Hkq [->|Hq]%elem_of_cons; right; apply Hdesc.
    - by apply tc_once.
    - eapply tc_l; [exact Hkq|]. by apply Hdesc. }
  unfold getAllParents. rewrite Hget in Hx |- *.
  destruct (decide (x ∈ i :: ids D)) as [|Hout]; [done|]. rewrite Hx.
  apply (getAllParents_loop_agree s0 s
           (λ c, ∃ k, (k ∉ i :: ids D) ∧ getItem s k = Some c)).
  - intros c q (k & Hk & Hc) Hq.
    assert (q ∉ i :: ids D) as Hqout.
    { intros Hin. apply Hk. apply (Hclosed k q); [by exists c | done]. }
    split; [by rewrite Hget, decide_False | eauto].
  - by exists x.
Qed.

(** The theorem at work: removing [A] from the fixture keeps the chain
    of [3]. *)
Lemma removeItem_keeps_chains_witness :
  ∃ s', removeItem 5 A fixture = Returns tt s' ∧
        getAllParents 2 s' (IdNum 3) = getAllParents 2 fixture (IdNum 3).
Proof.
  eexists. split; [vm_compute; reflexivity|].
  refine (removeItem_keeps_chains 5 A fixture _ (IdNum 3) Inv_fixture _ _ 2).
  - vm_compute. reflexivity.
  - vm_compute. by eexists.
Defined.

(** ** Descendant closures across mutations *)





(** ** The grid's path on well-formed rows *)

(** X14 — when the rows carry distinct identifiers and list every parent
    before its children, [getDataPath] returns for every row within as
    many steps as there are rows (one more unit of fuel than rows
    suffices), and the path it returns ends with the row's own label. *)
Theorem getDataPath_returns l data :
  NoDup (ids l) → parents_first l → data ∈ l →
  ∃ path, getDataPath (S (length l)) l data = Some path ∧
          last path = Some (item_label data).
Proof.
  intros Hnd Hpf Hdata.
  pose proof (parents_first_Inv l Hnd Hpf) as (_ & _ & Hac & _).
  assert (getItem (new_TreeStore l) (item_id data) = Some data) as Hget
    by (rewrite new_TreeStore_getItem; by apply last_filter_unique).
  destruct (getAllParents_loop_terminates (new_TreeStore l) (item_id data) Hac
              (S (length (items (new_TreeStore l)))) 0 (item_id data) data [])
    as [t Ht]; [done | done | constructor |].
  rewrite new_TreeStore_items, length_fmap in Ht by done.
  unfold getDataPath. rewrite buildPath_getAllParents_loop, Ht by done. simpl.
  eexists. split; [done|]. apply last_snoc.
Qed.

(** The theorem at work on the rows of the grid, for row [8]. *)
Lemma getDataPath_returns_witness :
  ∃ path,
    getDataPath (S (length mockItems)) mockItems
      (mkItem (IdNum 8) (Some (IdNum 4)) "Айтем 8" []) = Some path ∧
    last path = Some "Айтем 8".
Proof.
  apply (getDataPath_returns mockItems
           (mkItem (IdNum 8) (Some (IdNum 4)) "Айтем 8" [])).
  - apply mockItems_NoDup.
  - apply mockItems_parents_first.
  - vm_compute. set_solver.
Defined.
